(** * vdsearch: ribozyme filter

    A shallow embedding of [vdsearch/commands/ribozyme_filter.py]:
    the covariance-model cutoff parser [parse_cm_file] and the
    strand-aware classifier [ribozyme_filter].

    Data model.
    - Python [float] is IEEE binary64: Rocq's primitive [float], compared
      with [PrimFloat.ltb].
    - [str] is [string]; text is taken to be ASCII.
    - a [dict] keyed by profile name is a [gmap string _], a [set] of
      sequence identifiers is a [gset string].
    - the data frame read from the Infernal table is a [list] of rows, in
      file order.
    - an uncaught Python exception is the left summand of [result]. *)

From Stdlib Require Import Ascii Floats.
From Stdlib Require Uint63.
From stdpp Require Import base strings list gmap.

Local Open Scope string_scope.

(** ** Exceptions *)

Inductive exn : Type :=
  | KeyError (key : string)      (* [d[k]] on a dict without [k] *)
  | IndexError                   (* [l[i]] past the end of a list *)
  | ValueError (text : string).  (* [float(s)] on a non-number *)

Definition result (A : Type) : Type := exn + A.

Definition Ok {A} (a : A) : result A := inr a.
Definition Raise {A} (e : exn) : result A := inl e.

Definition bind {A B} (m : result A) (k : A → result B) : result B :=
  match m with
  | inl e => inl e
  | inr a => k a
  end.

Notation "'do' x <- m ; k" := (bind m (λ x, k))
  (at level 10, x name, m at level 100, k at level 200).

Definition is_ok {A} (m : result A) : Prop :=
  match m with inr _ => True | inl _ => False end.

(** Left fold of a fallible step over a list: a [for] loop whose body may
    raise. *)
Fixpoint foldM {S X} (step : S → X → result S) (s : S) (xs : list X) : result S :=
  match xs with
  | [] => Ok s
  | x :: xs' => do s' <- step s x; foldM step s' xs'
  end.

(** ** Floats *)

Definition flt (x y : float) : bool := PrimFloat.ltb x y.
Definition fle (x y : float) : bool := PrimFloat.leb x y.

(** ** The string operations of the parser *)

(** [line.startswith(p)] *)
Fixpoint startswith (p s : string) : bool :=
  match p, s with
  | EmptyString, _ => true
  | String a p', String b s' => if Ascii.eqb a b then startswith p' s' else false
  | String _ _, EmptyString => false
  end.

(** [p in s] *)
Fixpoint contains (p s : string) : bool :=
  startswith p s ||
  match s with
  | EmptyString => false
  | String _ s' => contains p s'
  end.

(** The ASCII characters on which [str.split()] cuts:
    TAB, LF, VT, FF, CR, FS, GS, RS, US and the space. *)
Definition isspace (c : Ascii.ascii) : bool :=
  let n := Ascii.nat_of_ascii c in
  (Nat.leb 9 n && Nat.leb n 13) || (Nat.leb 28 n && Nat.leb n 32).

Fixpoint split_from (tok : string) (s : string) : list string :=
  match s with
  | EmptyString => if String.eqb tok EmptyString then [] else [tok]
  | String c s' =>
      if isspace c then
        if String.eqb tok EmptyString then split_from EmptyString s' else tok :: split_from EmptyString s'
      else split_from (tok ++ String c EmptyString) s'
  end.

(** [s.split()]: the maximal runs of non-blank characters. *)
Definition split (s : string) : list string := split_from EmptyString s.

(** [l[i]] *)
Definition getitem {A} (l : list A) (i : nat) : result A :=
  match l !! i with
  | Some a => Ok a
  | None => Raise IndexError
  end.

(** ** CM cutoffs *)

Inductive CmCutoffType : Type := GA | NC | TC.

(** The inner dictionary [{"GA": _, "TC": _, "NC": _}]: it always has
    exactly these three keys. *)
Record cutoff : Type := mk_cutoff {
  cut_GA : float;
  cut_TC : float;
  cut_NC : float
}.

Definition zero_cutoff : cutoff := mk_cutoff 0%float 0%float 0%float.

(** [d[cm_cutoff_type]] *)
Definition cutoff_get (d : cutoff) (t : CmCutoffType) : float :=
  match t with
  | GA => cut_GA d
  | NC => cut_NC d
  | TC => cut_TC d
  end.

(** [d[t] = v] *)
Definition cutoff_set (d : cutoff) (t : CmCutoffType) (v : float) : cutoff :=
  match t with
  | GA => mk_cutoff v (cut_TC d) (cut_NC d)
  | TC => mk_cutoff (cut_GA d) v (cut_NC d)
  | NC => mk_cutoff (cut_GA d) (cut_TC d) v
  end.

Section Parser.

(** Python's built-in [float(s)]; [None] is a [ValueError]. *)
Variable float_of_string : string → option float.

Definition to_float (s : string) : result float :=
  match float_of_string s with
  | Some v => Ok v
  | None => Raise (ValueError s)
  end.

(** The loop variables of [parse_cm_file]. *)
Record parser_state : Type := mk_state {
  cutoffs_of : gmap string cutoff;
  last_name : string;
  last_cutoff : cutoff
}.

Definition initial_state : parser_state := mk_state ∅ EmptyString zero_cutoff.

(** One turn of [for line in f]. *)
Definition parse_line (st : parser_state) (line : string) : result parser_state :=
  if contains "INFERNAL" line then
    Ok (mk_state
          (if String.eqb (last_name st) EmptyString then cutoffs_of st
           else <[last_name st := last_cutoff st]> (cutoffs_of st))
          EmptyString zero_cutoff)
  else if startswith "NAME" line then
    do name <- getitem (split line) 1;
    Ok (mk_state (cutoffs_of st) name (last_cutoff st))
  else if startswith "GA" line then
    do tok <- getitem (split line) 1;
    do v <- to_float tok;
    Ok (mk_state (cutoffs_of st) (last_name st) (cutoff_set (last_cutoff st) GA v))
  else if startswith "TC" line then
    do tok <- getitem (split line) 1;
    do v <- to_float tok;
    Ok (mk_state (cutoffs_of st) (last_name st) (cutoff_set (last_cutoff st) TC v))
  else if startswith "NC" line then
    do tok <- getitem (split line) 1;
    do v <- to_float tok;
    Ok (mk_state (cutoffs_of st) (last_name st) (cutoff_set (last_cutoff st) NC v))
  else Ok st.

(** The flush after the loop: [cutoffs[last_name] = last_cutoff]. *)
Definition flush (st : parser_state) : gmap string cutoff :=
  <[last_name st := last_cutoff st]> (cutoffs_of st).

(** [parse_cm_file], on the lines of the file (each with its line end). *)
Definition parse_cm_file (lines : list string) : result (gmap string cutoff) :=
  do st <- foldM parse_line initial_state lines;
  Ok (flush st).

End Parser.

(** ** The hit table *)

(** One row of the Infernal table, with the column names given to
    [pd.read_csv]. *)
Record HitRecord : Type := mk_hit {
  seq_id : string;
  accession : string;
  ribozyme : string;
  from : Z;
  to : Z;
  strand : string;
  score : float;
  evalue : float;
  inc : string
}.

(** The options of [ribozyme_filter] that steer the classification. *)
Record Config : Type := mk_config {
  use_cm_cutoff : bool;
  cm_cutoff_type : CmCutoffType;
  use_evalue_cutoff : bool;
  max_evalue : float
}.

(** [df.query(p)]: the rows on which [p] holds, in order.  The thresholds
    reach pandas through an f-string; [repr] of a float reads back as the
    same float, so the comparison is with the float itself.  (A NaN
    threshold is outside the model.) *)
Definition query (p : HitRecord → bool) (df : list HitRecord) : list HitRecord :=
  List.filter p df.

(** The values of [df.seq_id], as [set.update] sees them. *)
Definition seq_ids (df : list HitRecord) : gset string :=
  list_to_set (seq_id <$> df).

(** [ribozymes.groupby(["ribozyme"])]: one group per profile name, the
    names in increasing order, each group keeping its rows in table order.
    (With the pandas of the project a one-column key is the name itself.) *)
Fixpoint insert_key (k : string) (ks : list string) : list string :=
  match ks with
  | [] => [k]
  | k' :: ks' =>
      match String.compare k k' with
      | Eq => ks
      | Lt => k :: ks
      | Gt => k' :: insert_key k ks'
      end
  end.

Definition group_keys (df : list HitRecord) : list string :=
  foldr insert_key [] (ribozyme <$> df).

Definition group_of (df : list HitRecord) (k : string) : string * list HitRecord :=
  (k, query (λ r, String.eqb (ribozyme r) k) df).

Definition groupby (df : list HitRecord) : list (string * list HitRecord) :=
  group_of df <$> group_keys df.

(** The three sets filled by the loop. *)
Record evidence : Type := mk_evidence {
  rz_plus : gset string;
  rz_minus : gset string;
  rz_significant : gset string
}.

Definition no_evidence : evidence := mk_evidence ∅ ∅ ∅.

(** Merging two partial results. *)
Definition merge (a b : evidence) : evidence :=
  mk_evidence (rz_plus a ∪ rz_plus b) (rz_minus a ∪ rz_minus b)
              (rz_significant a ∪ rz_significant b).

(** [cutoffs[rz_name]] *)
Definition dict_get {V} (d : gmap string V) (k : string) : result V :=
  match d !! k with
  | Some v => Ok v
  | None => Raise (KeyError k)
  end.

Definition on_strand (s : string) (r : HitRecord) : bool := String.eqb (strand r) s.

Section Classifier.

(** Python's [x ** 0.5] on a non-negative float (the C library's [pow]). *)
Variable pow_half : float → float.

Variable cfg : Config.
Variable cutoffs : gmap string cutoff.

(** What one group adds under [if use_cm_cutoff and cutoffs:]. *)
Definition cutoff_hits (c : float) (rz_df : list HitRecord) : evidence :=
  mk_evidence
    (seq_ids (query (λ r, on_strand "+" r && flt c (score r)) rz_df))
    (seq_ids (query (λ r, on_strand "-" r && flt c (score r)) rz_df))
    (seq_ids (query (λ r, flt c (score r)) rz_df)).

(** What one group adds under [if use_evalue_cutoff:]. *)
Definition evalue_hits (rz_df : list HitRecord) : evidence :=
  mk_evidence
    (seq_ids (query (λ r, on_strand "+" r && flt (evalue r) (pow_half (max_evalue cfg))) rz_df))
    (seq_ids (query (λ r, on_strand "-" r && flt (evalue r) (pow_half (max_evalue cfg))) rz_df))
    (seq_ids (query (λ r, flt (evalue r) (max_evalue cfg)) rz_df)).

Definition cutoff_update (ev : evidence) (g : string * list HitRecord) : result evidence :=
  if use_cm_cutoff cfg && bool_decide (cutoffs ≠ ∅) then
    do d <- dict_get cutoffs g.1;
    Ok (merge ev (cutoff_hits (cutoff_get d (cm_cutoff_type cfg)) g.2))
  else Ok ev.

Definition evalue_update (ev : evidence) (g : string * list HitRecord) : evidence :=
  if use_evalue_cutoff cfg then merge ev (evalue_hits g.2) else ev.

(** The body of [for rz_name, rz_df in ribozymes.groupby(...)].  (The
    debug log line at its head changes none of the three sets.) *)
Definition group_step (ev : evidence) (g : string * list HitRecord) : result evidence :=
  do ev' <- cutoff_update ev g;
  Ok (evalue_update ev' g).

(** The whole loop, over the groups in the order given. *)
Definition collect (groups : list (string * list HitRecord)) : result evidence :=
  foldM group_step no_evidence groups.

End Classifier.

(** The derived sets. *)
Definition double_rz_ids (ev : evidence) : gset string := rz_plus ev ∩ rz_minus ev.
Definition single_rz_ids (ev : evidence) : gset string :=
  rz_significant ev ∖ double_rz_ids ev.
Definition ribozy_likes_ids (ev : evidence) : gset string :=
  double_rz_ids ev ∪ single_rz_ids ev.

(** A row of the returned frames: the hit and its [Polarity] cell
    ([None] is the empty cell). *)
Record Row : Type := mk_row {
  hit : HitRecord;
  Polarity : option string
}.

Record ClassificationResult : Type := mk_result {
  single_rzs : list Row;
  double_rzs : list Row;
  ribozy_likes : list Row
}.

(** [ribozymes["seq_id"].isin(ids)] *)
Definition isin (ids : gset string) (r : HitRecord) : bool :=
  bool_decide (seq_id r ∈ ids).

(** The two [ribozymes.loc[..., "Polarity"] = ...] assignments: the second
    one overwrites the first. *)
Definition tag (ev : evidence) (r : HitRecord) : Row :=
  mk_row r
    (if isin (single_rz_ids ev) r then Some "(+)"
     else if isin (double_rz_ids ev) r then Some "(+) and (-)"
     else None).

(** [ribozymes.loc[ribozymes.seq_id.isin(ids)]] *)
Definition loc (ids : gset string) (df : list Row) : list Row :=
  List.filter (λ row, isin ids (hit row)) df.

(** From the derived sets to the returned value: [None] when no
    identifier is viroid-like, the three frames otherwise.  (Writing
    [ribozy_likes] to [output_tsv] leaves the returned value as it is.) *)
Definition report (ribozymes : list HitRecord) (ev : evidence)
  : option ClassificationResult :=
  if bool_decide (size (ribozy_likes_ids ev) = 0) then None
  else
    let tagged := tag ev <$> ribozymes in
    Some (mk_result (loc (single_rz_ids ev) tagged)
                    (loc (double_rz_ids ev) tagged)
                    (loc (ribozy_likes_ids ev) tagged)).

Section Filter.

Variable pow_half : float → float.

(** Lines 102 to 180 of [ribozyme_filter], the groups taken in the order
    [groups]. *)
Definition analyze_groups (groups : list (string * list HitRecord))
    (ribozymes : list HitRecord) (cutoffs : gmap string cutoff) (cfg : Config)
  : result (option ClassificationResult) :=
  do ev <- collect pow_half cfg cutoffs groups;
  Ok (report ribozymes ev).

Definition analyze (ribozymes : list HitRecord) (cutoffs : gmap string cutoff)
    (cfg : Config) : result (option ClassificationResult) :=
  analyze_groups (groupby ribozymes) ribozymes cutoffs cfg.

(** The classifier on a parsed table and a loaded cutoff dictionary. *)
Definition classify (ribozymes : list HitRecord) (cutoffs : gmap string cutoff)
    (cfg : Config) : result (option ClassificationResult) :=
  match ribozymes with
  | [] => Ok None
  | _ :: _ => analyze ribozymes cutoffs cfg
  end.

Variable float_of_string : string → option float.

(** [ribozyme_filter]: [cm_file] holds the lines of the CM file when a
    path is given. *)
Definition ribozyme_filter (ribozymes : list HitRecord)
    (cm_file : option (list string)) (cfg : Config)
  : result (option ClassificationResult) :=
  match ribozymes with
  | [] => Ok None
  | _ :: _ =>
      do cutoffs <-
        match cm_file with
        | Some lines =>
            if use_cm_cutoff cfg then parse_cm_file float_of_string lines else Ok ∅
        | None => Ok ∅
        end;
      analyze ribozymes cutoffs cfg
  end.

End Filter.

(** ** The classification read hit by hit

    The loop of [ribozyme_filter] works group by group.  The definitions
    below state its outcome hit by hit, as the tests are worded; the link
    with [collect] is [collect_groupby]. *)

Section PerHit.

Variable pow_half : float → float.
Variable cfg : Config.
Variable cutoffs : gmap string cutoff.

(** The guard [use_cm_cutoff and cutoffs]. *)
Definition cutoff_active : bool :=
  use_cm_cutoff cfg && bool_decide (cutoffs ≠ ∅).

Definition above_cutoff (r : HitRecord) : bool :=
  match cutoffs !! ribozyme r with
  | Some d => flt (cutoff_get d (cm_cutoff_type cfg)) (score r)
  | None => false
  end.

Definition strand_evidence (r : HitRecord) : bool :=
  (cutoff_active && above_cutoff r) ||
  (use_evalue_cutoff cfg && flt (evalue r) (pow_half (max_evalue cfg))).

Definition significant (r : HitRecord) : bool :=
  (cutoff_active && above_cutoff r) ||
  (use_evalue_cutoff cfg && flt (evalue r) (max_evalue cfg)).

Definition evidence_of (df : list HitRecord) : evidence :=
  mk_evidence
    (seq_ids (query (λ r, on_strand "+" r && strand_evidence r) df))
    (seq_ids (query (λ r, on_strand "-" r && strand_evidence r) df))
    (seq_ids (query significant df)).

(** The first profile name, in group order, that the cutoff dictionary
    lacks. *)
Definition first_missing (keys : list string) : option string :=
  List.find (λ k, bool_decide (cutoffs !! k = None)) keys.

Definition collect_spec (df : list HitRecord) : result evidence :=
  match (if cutoff_active then first_missing (group_keys df) else None) with
  | Some k => Raise (KeyError k)
  | None => Ok (evidence_of df)
  end.

End PerHit.

(** Two runs end alike: both raise, or both return the same value. *)
Definition same_outcome {A} (x y : result A) : Prop :=
  match x, y with
  | inr a, inr b => a = b
  | inl _, inl _ => True
  | _, _ => False
  end.

(** [cfg] with another [max_evalue]. *)
Definition with_max_evalue (cfg : Config) (m : float) : Config :=
  mk_config (use_cm_cutoff cfg) (cm_cutoff_type cfg) (use_evalue_cutoff cfg) m.

(** The identifiers of the rows of a returned frame. *)
Definition row_ids (rows : list Row) : gset string := seq_ids (hit <$> rows).

(** Partial results computed apart, then merged by union. *)
Definition reduce (parts : list (result evidence)) : result evidence :=
  foldr (λ p acc, do a <- p; do b <- acc; Ok (merge a b)) (Ok no_evidence) parts.

(** ** Sample data *)

Set Warnings "-inexact-float".

(** [x ** 0.5] taken as the IEEE square root. *)
Definition ieee_pow_half (x : float) : float := PrimFloat.sqrt x.

Definition sample_hit (id profile strand : string) (score evalue : float) : HitRecord :=
  mk_hit id "-" profile 1 60 strand score evalue "!".

Definition twister_cutoffs : gmap string cutoff :=
  {[ "Twister-P5" := mk_cutoff 45 45 30 ]}.

Definition default_config : Config := mk_config true GA true 0.01.
Definition cutoff_only : Config := mk_config true GA false 0.01.
Definition evalue_only : Config := mk_config false GA true 0.01.
Definition no_filter : Config := mk_config false GA false 0.01.

(** A hit of a profile that [twister_cutoffs] does not list. *)
Definition hammerhead_hit : HitRecord :=
  sample_hit "seq1" "Hammerhead_3" "+" 50 0.001.
Definition hammerhead_hits : list HitRecord := [hammerhead_hit].

(** Two hits of one sequence, one per strand, both above the cutoff. *)
Definition twister_hits : list HitRecord :=
  [sample_hit "seq1" "Twister-P5" "+" 50 1; sample_hit "seq1" "Twister-P5" "-" 50 1].

(** One hit under [max_evalue], one between [max_evalue] and its root. *)
Definition evalue_hits_sample : list HitRecord :=
  [sample_hit "seq1" "Twister-P5" "+" 10 0.001; sample_hit "seq2" "Twister-P5" "+" 10 0.05].


(** ** A profile block, read as the specification words it

    The parser overwrites its loop variables line by line.  The
    definitions below read a block at once: its name is the second token
    of its (last) [NAME] line, each cutoff the value on its (last) line of
    that kind, [0.0] when the block has none.  The link with
    [parse_cm_file] is [parse_block]. *)

Inductive line_kind : Type :=
  | Sentinel
  | NameLine
  | CutLine (t : CmCutoffType)
  | OtherLine.

Global Instance CmCutoffType_eq_dec : EqDecision CmCutoffType.
Proof. solve_decision. Defined.

Global Instance line_kind_eq_dec : EqDecision line_kind.
Proof. solve_decision. Defined.

(** The branch of the [if]/[elif] chain that a line takes. *)
Definition kind_of (line : string) : line_kind :=
  if contains "INFERNAL" line then Sentinel
  else if startswith "NAME" line then NameLine
  else if startswith "GA" line then CutLine GA
  else if startswith "TC" line then CutLine TC
  else if startswith "NC" line then CutLine NC
  else OtherLine.

(** The second tokens of the lines of one kind, in file order ([None]
    for a line of a single token). *)
Definition second_tokens (k : line_kind) (body : list string) : list (option string) :=
  (λ l, split l !! 1) <$> List.filter (λ l, bool_decide (kind_of l = k)) body.

Definition block_name (body : list string) : option string :=
  match last (second_tokens NameLine body) with
  | Some tok => tok
  | None => None
  end.

Section Block.

Variable float_of_string : string → option float.

Definition block_value (t : CmCutoffType) (body : list string) : option float :=
  match last (second_tokens (CutLine t) body) with
  | Some tok => tok ≫= float_of_string
  | None => Some 0%float
  end.

Definition block_cutoff (body : list string) : option cutoff :=
  ga ← block_value GA body;
  tc ← block_value TC body;
  nc ← block_value NC body;
  Some (mk_cutoff ga tc nc).

(** The name and the cutoffs that a block leaves in the loop variables,
    given what they held before it. *)
Definition name_after (st : parser_state) (body : list string) : string :=
  match last (second_tokens NameLine body) with
  | Some (Some name) => name
  | _ => last_name st
  end.

Definition value_after (st : parser_state) (t : CmCutoffType) (body : list string) : float :=
  match last (second_tokens (CutLine t) body) with
  | Some tok => default 0%float (tok ≫= float_of_string)
  | None => cutoff_get (last_cutoff st) t
  end.

(** A line on which the parser does not raise. *)
Definition line_ok (line : string) : bool :=
  match kind_of line with
  | NameLine => bool_decide (is_Some (split line !! 1))
  | CutLine _ => bool_decide (is_Some (split line !! 1 ≫= float_of_string))
  | _ => true
  end.

End Block.

(** ** A reader of plain decimal numerals

    [decimal_float] stands for [float] when the model is run on sample
    files: on a numeral [digits], [digits.digits], [.digits] or [digits.]
    of at most 15 digits, signed or not, it is the float that [float]
    returns (both operands of the division are exact); it is [None] on
    anything else. *)

Definition digit_of (c : Ascii.ascii) : option Z :=
  let n := Ascii.nat_of_ascii c in
  if Nat.leb 48 n && Nat.leb n 57 then Some (Z.of_nat (n - 48)) else None.

Fixpoint read_digits (s : string) : list Z * string :=
  match s with
  | EmptyString => ([], EmptyString)
  | String c s' =>
      match digit_of c with
      | Some d => let '(ds, rest) := read_digits s' in (d :: ds, rest)
      | None => ([], s)
      end
  end.

Definition number_of (ds : list Z) : Z := foldl (λ acc d, 10 * acc + d)%Z 0%Z ds.

Definition float_of_Z (z : Z) : float := PrimFloat.of_uint63 (Uint63.of_Z z).

Definition decimal_float (s : string) : option float :=
  let '(negative, body) :=
    match s with
    | String "-"%char s' => (true, s')
    | String "+"%char s' => (false, s')
    | _ => (false, s)
    end in
  let '(ip, rest) := read_digits body in
  let '(fp, rest') :=
    match rest with
    | String "."%char r => read_digits r
    | _ => ([], rest)
    end in
  if String.eqb rest' EmptyString && negb (Nat.eqb (length (ip ++ fp)%list) 0)
     && Nat.leb (length (ip ++ fp)%list) 15
  then
    let v := PrimFloat.div (float_of_Z (number_of (ip ++ fp)%list))
                           (float_of_Z (10 ^ Z.of_nat (length fp))) in
    Some (if negative then PrimFloat.opp v else v)
  else None.

(** ** Sample CM files *)

Definition nl : string := String (Ascii.ascii_of_nat 10) EmptyString.

Definition sentinel_line : string := "INFERNAL1/a [1.1.4 | Dec 2020]" ++ nl.

(** One block without an [NC] line. *)
Definition twister_block : list string :=
  [ "NAME     Twister-P5" ++ nl;
    "ACC      RF02684" ++ nl;
    "GA       45.00" ++ nl;
    "TC       45.30" ++ nl ].

(** The block behind its sentinel, and no sentinel after it. *)
Definition twister_cm : list string := sentinel_line :: twister_block.

(** A block with a cutoff line and no [NAME] line. *)
Definition nameless_cm : list string :=
  [ sentinel_line; "ACC      RF00008" ++ nl; "GA       5.0" ++ nl ].

(** A complete block, then a sentinel and a line that is neither a name
    nor a cutoff. *)
Definition closed_cm_tail : list string := [ "ACC      RF00008" ++ nl ].

Definition closed_cm : list string :=
  ((twister_cm ++ [ sentinel_line ]) ++ closed_cm_tail)%list.

(** ** A CM file as a run of blocks

    The sentinel lines cut a file into blocks: the lines before the first
    sentinel, then one block behind each sentinel.  [split_blocks] cuts,
    [join_blocks] puts the lines back, and [block_entries] lists what
    [parse_cm_file] stores, block by block: at a sentinel a block is
    stored only under a name, at the end of the file the last block is
    stored in any case, under the empty name when it has none. *)

Definition join_blocks (b0 : list string) (rest : list (string * list string))
  : list string :=
  (b0 ++ concat ((λ sb, sb.1 :: sb.2) <$> rest))%list.

Fixpoint split_blocks (lines : list string)
  : list string * list (string * list string) :=
  match lines with
  | [] => ([], [])
  | l :: ls =>
      let '(b, rest) := split_blocks ls in
      if bool_decide (kind_of l = Sentinel) then ([], (l, b) :: rest)
      else (l :: b, rest)
  end.

Section Blocks.

Variable float_of_string : string → option float.

Definition cutoff_of_block (b : list string) : cutoff :=
  default zero_cutoff (block_cutoff float_of_string b).

Fixpoint block_entries (b : list string) (rest : list (string * list string))
  : list (string * cutoff) :=
  match rest with
  | [] => [(default EmptyString (block_name b), cutoff_of_block b)]
  | sb :: rest' =>
      (match block_name b with
       | Some name => [(name, cutoff_of_block b)]
       | None => []
       end ++ block_entries sb.2 rest')%list
  end.

(** [cutoffs[name] = cutoff], entry after entry. *)
Definition store_all (table : gmap string cutoff) (entries : list (string * cutoff))
  : gmap string cutoff :=
  foldl (λ m e, <[e.1 := e.2]> m) table entries.

(** The entry that a run of assignments leaves under [name]: the last
    one made under it. *)
Definition last_entry (name : string) (entries : list (string * cutoff))
  : option cutoff :=
  snd <$> last (List.filter (λ e, String.eqb e.1 name) entries).

(** The exception of a line on which the parser raises. *)
Definition line_error (line : string) : exn :=
  match split line !! 1 with
  | None => IndexError
  | Some tok => ValueError tok
  end.

End Blocks.

(** A CM file of two blocks for one profile name and one for another. *)
Definition three_block_cm : list string :=
  app twister_cm
    [ sentinel_line; "NAME     Hammerhead_3" ++ nl; "GA       40.00" ++ nl;
      sentinel_line; "NAME     Twister-P5" ++ nl; "NC       30.00" ++ nl ].

(** A CM file whose third line has no number after [GA]. *)
Definition broken_cm : list string :=
  [ sentinel_line; "NAME     Twister-P5" ++ nl; "GA       n/a" ++ nl;
    "NAME" ++ nl ].

(** ** [easy_search]: from the Infernal table to the identifiers written out

    Lines 87 to 94 of [easy_search]: the table that [infernal] wrote is
    filtered with the default options of [ribozyme_filter] and the CM file
    of the search, and the [seq_id] column of the [ribozy_likes] frame is
    handed to [write_seqs].  The tools run before (circular RNA finding,
    deduplication, cmsearch) and [write_seqs] itself are other programs. *)

Inductive search_exn : Type :=
  | FilterError (e : exn)   (* raised inside [ribozyme_filter] *)
  | TypeError.              (* [None["ribozy_likes"]] *)

(** The keyword defaults of [ribozyme_filter]. *)
Definition ribozyme_filter_defaults : Config := mk_config true GA true 0.01.

Section EasySearch.

Variable pow_half : float → float.
Variable float_of_string : string → option float.

(** [frame.seq_id.tolist()] *)
Definition seq_id_list (frame : list Row) : list string :=
  (λ row, seq_id (hit row)) <$> frame.

Definition easy_search_ids (cmsearch_tsv : list HitRecord)
    (reference_cms : option (list string)) : search_exn + list string :=
  match ribozyme_filter pow_half float_of_string cmsearch_tsv reference_cms
          ribozyme_filter_defaults with
  | inl e => inl (FilterError e)
  | inr None => inl TypeError
  | inr (Some ribozymes) => inr (seq_id_list (ribozy_likes ribozymes))
  end.

End EasySearch.

(** A table with a dual-polarity sequence, a single-polarity one and one
    that is neither. *)
Definition mixed_hits : list HitRecord :=
  [ sample_hit "seq1" "Twister-P5" "+" 50 1;
    sample_hit "seq2" "Twister-P5" "+" 60 1;
    sample_hit "seq1" "Twister-P5" "-" 50 1;
    sample_hit "seq3" "Twister-P5" "-" 10 1 ].

(** [cfg] with another [cm_cutoff_type]. *)
Definition with_cutoff_type (cfg : Config) (t : CmCutoffType) : Config :=
  mk_config (use_cm_cutoff cfg) t (use_evalue_cutoff cfg) (max_evalue cfg).


(** A hit above its cutoff whose e-value lies between [max_evalue] and
    its root. *)
Definition strong_hit : HitRecord := sample_hit "seq1" "Twister-P5" "+" 50 0.05.
(** * Proofs *)

Local Open Scope nat_scope.
Local Open Scope list_scope.
Set Warnings "-clear-no-such-hyp".

(** ** The error monad *)

Lemma bind_ok_inv {A B} (m : result A) (k : A → result B) (b : B) :
  bind m k = Ok b → ∃ a, m = Ok a ∧ k a = Ok b.
Proof. destruct m as [e|a]; simpl; [discriminate | eauto]. Qed.

Lemma bind_ok {A B} (a : A) (k : A → result B) : bind (Ok a) k = k a.
Proof. reflexivity. Qed.

Lemma foldM_app {S X} (step : S → X → result S) (s : S) (xs ys : list X) :
  foldM step s (xs ++ ys) = bind (foldM step s xs) (λ s', foldM step s' ys).
Proof.
  revert s; induction xs as [|x xs IH]; intros s; simpl; [done|].
  destruct (step s x) as [e|s']; simpl; [done | apply IH].
Qed.

(** ** The order on floats *)

Lemma SFltb_SFleb_trans (a b c : spec_float) :
  SFltb a b = true → SFleb b c = true → SFltb a c = true.
Proof.
  unfold SFltb, SFleb.
  destruct a as [sa| sa | |sa ma ea], b as [sb|sb| |sb mb eb], c as [sc|sc| |sc mc ec];
    simpl; try discriminate; try reflexivity;
    repeat match goal with s : bool |- _ => destruct s end;
    simpl; try discriminate; try reflexivity.
  all: rewrite ?Pos.compare_cont_spec; simpl.
  all: destruct (Z.compare_spec ea eb), (Z.compare_spec eb ec), (Z.compare_spec ea ec);
       try lia; simpl; try discriminate; try reflexivity.
  all: subst; destruct (Pos.compare_spec ma mb), (Pos.compare_spec mb mc), (Pos.compare_spec ma mc);
       try lia; simpl; try discriminate; try reflexivity.
Qed.

Lemma flt_fle_trans (x y z : float) :
  flt x y = true → fle y z = true → flt x z = true.
Proof.
  unfold flt, fle. rewrite !FloatAxioms.ltb_spec, FloatAxioms.leb_spec. apply SFltb_SFleb_trans.
Qed.

Lemma elem_of_concat {A} (x : A) (ls : list (list A)) :
  x ∈ concat ls ↔ ∃ l, x ∈ l ∧ l ∈ ls.
Proof.
  induction ls as [|l ls IH]; simpl.
  - split; [intros H; inversion H | intros (l & _ & H); inversion H].
  - rewrite elem_of_app, IH. split.
    + intros [?|(l' & ? & ?)]; [exists l; split; [done|left] | exists l'; split; [done|by right]].
    + intros (l' & Hx & Hl). apply elem_of_cons in Hl as [->|?]; [by left | right; eauto].
Qed.

(** ** Queries and identifier sets *)

Lemma elem_of_query (p : HitRecord → bool) (df : list HitRecord) (r : HitRecord) :
  r ∈ query p df ↔ r ∈ df ∧ p r = true.
Proof. unfold query. rewrite !list_elem_of_In. apply filter_In. Qed.

Lemma elem_of_seq_ids (df : list HitRecord) (s : string) :
  s ∈ seq_ids df ↔ ∃ r, r ∈ df ∧ seq_id r = s.
Proof.
  unfold seq_ids. rewrite elem_of_list_to_set, list_elem_of_fmap.
  split; intros (r & H1 & H2); exists r; auto.
Qed.

Lemma elem_of_seq_ids_query p df s :
  s ∈ seq_ids (query p df) ↔ ∃ r, r ∈ df ∧ p r = true ∧ seq_id r = s.
Proof.
  rewrite elem_of_seq_ids. split.
  - intros (r & Hr & <-). apply elem_of_query in Hr as [? ?]. eauto.
  - intros (r & Hr & Hp & <-). exists r. split; [|done]. by apply elem_of_query.
Qed.

Lemma query_app p df1 df2 : query p (df1 ++ df2) = query p df1 ++ query p df2.
Proof. apply List.filter_app. Qed.

Lemma seq_ids_app df1 df2 : seq_ids (df1 ++ df2) = seq_ids df1 ∪ seq_ids df2.
Proof. unfold seq_ids. rewrite fmap_app. apply set_eq. intros s. rewrite elem_of_union, !elem_of_list_to_set, elem_of_app. done. Qed.

Lemma seq_ids_query_ext p q df :
  (∀ r, r ∈ df → p r = q r) → seq_ids (query p df) = seq_ids (query q df).
Proof.
  intros E. apply set_eq. intros s. rewrite !elem_of_seq_ids_query.
  split; intros (r & Hr & Hp & Hs); exists r; repeat split; auto.
  - by rewrite <- E.
  - by rewrite E.
Qed.

Lemma seq_ids_query_or p q df :
  seq_ids (query p df) ∪ seq_ids (query q df) = seq_ids (query (λ r, p r || q r) df).
Proof.
  apply set_eq. intros s. rewrite elem_of_union, !elem_of_seq_ids_query. split.
  - intros [(r & ? & Hp & ?)|(r & ? & Hq & ?)]; exists r; rewrite ?Hp, ?Hq, ?orb_true_r; auto.
  - intros (r & ? & Hpq & ?). apply orb_true_iff in Hpq as [?|?]; [left|right]; eauto.
Qed.

Lemma seq_ids_query_false p df :
  (∀ r, r ∈ df → p r = false) → seq_ids (query p df) = ∅.
Proof.
  intros E. apply set_eq. intros s. rewrite elem_of_seq_ids_query. split.
  - intros (r & Hr & Hp & _). rewrite (E r Hr) in Hp. discriminate.
  - intros H. by apply not_elem_of_empty in H.
Qed.

Lemma seq_ids_query_same_rows p df1 df2 :
  (∀ r, r ∈ df1 ↔ r ∈ df2) → seq_ids (query p df1) = seq_ids (query p df2).
Proof.
  intros E. apply set_eq. intros s. rewrite !elem_of_seq_ids_query.
  split; intros (r & Hr & ?); exists r; (split; [by apply E | done]).
Qed.

(** ** Evidence *)

Lemma evidence_eq (a b : evidence) :
  rz_plus a = rz_plus b → rz_minus a = rz_minus b →
  rz_significant a = rz_significant b → a = b.
Proof. destruct a, b; simpl; congruence. Qed.

Lemma merge_comm a b : merge a b = merge b a.
Proof. apply evidence_eq; simpl; set_solver. Qed.

Lemma merge_assoc a b c : merge a (merge b c) = merge (merge a b) c.
Proof. apply evidence_eq; simpl; set_solver. Qed.

Lemma merge_empty_l a : merge no_evidence a = a.
Proof. apply evidence_eq; simpl; set_solver. Qed.

Lemma merge_empty_r a : merge a no_evidence = a.
Proof. apply evidence_eq; simpl; set_solver. Qed.

Lemma merge_idemp a : merge a a = a.
Proof. apply evidence_eq; simpl; set_solver. Qed.

(** ** Grouping *)

Lemma elem_of_insert_key k ks x : x ∈ insert_key k ks ↔ x = k ∨ x ∈ ks.
Proof.
  induction ks as [|k' ks IH]; simpl.
  - set_solver.
  - destruct (String.compare k k') eqn:E.
    + apply String.compare_eq_iff in E as ->. set_solver.
    + set_solver.
    + rewrite !elem_of_cons, IH. tauto.
Qed.

Lemma elem_of_group_keys df k :
  k ∈ group_keys df ↔ ∃ r, r ∈ df ∧ ribozyme r = k.
Proof.
  unfold group_keys. induction df as [|r df IH]; simpl.
  - split; [intros H; inversion H | intros (r & H & _); inversion H].
  - rewrite elem_of_insert_key, IH. split.
    + intros [->|(r' & H & E)]; [exists r; split; [left|done] | exists r'; split; [by right|done]].
    + intros (r' & H & E). apply elem_of_cons in H as [->|H]; [by left | right; eauto].
Qed.

Lemma elem_of_groupby df g :
  g ∈ groupby df ↔ (∃ r, r ∈ df ∧ ribozyme r = g.1) ∧ g = group_of df g.1.
Proof.
  unfold groupby. rewrite list_elem_of_fmap. split.
  - intros (k & -> & Hk). apply elem_of_group_keys in Hk. simpl. done.
  - intros [Hk ->]. exists g.1. split; [done|]. by apply elem_of_group_keys.
Qed.

Lemma groupby_nil_inv df : groupby df = [] → df = [].
Proof.
  destruct df as [|r df]; [done|]. intros E.
  assert (H : group_of (r :: df) (ribozyme r) ∈ groupby (r :: df)).
  { apply elem_of_groupby. simpl. split; [|done]. exists r. split; [left|done]. }
  rewrite E in H. inversion H.
Qed.

(** ** The loop over the groups *)

Section Collect.

Variable pow_half : float → float.
Variable cfg : Config.
Variable cutoffs : gmap string cutoff.

Abbreviation cutoff_upd := (cutoff_update cfg cutoffs).
Abbreviation evalue_upd := (evalue_update pow_half cfg).
Abbreviation step := (group_step pow_half cfg cutoffs).
Abbreviation run := (collect pow_half cfg cutoffs).
Abbreviation expected := (evidence_of pow_half cfg cutoffs).

Lemma cutoff_update_merge ev g :
  cutoff_upd ev g = bind (cutoff_upd no_evidence g) (λ c, Ok (merge ev c)).
Proof.
  unfold cutoff_update.
  destruct (use_cm_cutoff cfg && bool_decide (cutoffs ≠ ∅)); simpl.
  - destruct (dict_get cutoffs g.1) as [e|d]; simpl; [done|].
    by rewrite merge_empty_l.
  - by rewrite merge_empty_r.
Qed.

Lemma evalue_update_merge ev g :
  evalue_upd ev g = merge ev (evalue_upd no_evidence g).
Proof.
  unfold evalue_update. destruct (use_evalue_cutoff cfg).
  - by rewrite merge_empty_l.
  - by rewrite merge_empty_r.
Qed.

Lemma group_step_merge ev g :
  step ev g = bind (step no_evidence g) (λ c, Ok (merge ev c)).
Proof.
  unfold group_step. rewrite cutoff_update_merge.
  destruct (cutoff_upd no_evidence g) as [e|c]; simpl; [done|].
  rewrite (evalue_update_merge (merge ev c)), (evalue_update_merge c).
  by rewrite merge_assoc.
Qed.

Lemma foldM_group_step ev gs :
  foldM step ev gs = bind (run gs) (λ c, Ok (merge ev c)).
Proof.
  unfold collect. revert ev. induction gs as [|g gs IH]; intros ev; simpl.
  - by rewrite merge_empty_r.
  - rewrite (group_step_merge ev g).
    destruct (step no_evidence g) as [e|c]; simpl; [done|].
    rewrite (IH (merge ev c)), (IH c).
    destruct (foldM step no_evidence gs) as [e|d]; simpl; [done|].
    by rewrite merge_assoc.
Qed.

Lemma collect_cons g gs :
  run (g :: gs) =
  bind (step no_evidence g) (λ a, bind (run gs) (λ b, Ok (merge a b))).
Proof.
  unfold collect at 1. simpl.
  destruct (step no_evidence g) as [e|a]; simpl; [done|].
  apply foldM_group_step.
Qed.

Lemma collect_app gs1 gs2 :
  run (gs1 ++ gs2) =
  bind (run gs1) (λ a, bind (run gs2) (λ b, Ok (merge a b))).
Proof.
  unfold collect at 1. rewrite foldM_app.
  fold (run gs1). destruct (run gs1) as [e|a]; simpl; [done|].
  apply foldM_group_step.
Qed.

Lemma collect_perm gs gs' :
  Permutation gs gs' → same_outcome (run gs) (run gs').
Proof.
  induction 1 as [|g gs gs' _ IH|g h gs|gs1 gs2 gs3 _ IH1 _ IH2].
  - done.
  - rewrite !collect_cons.
    destruct (step no_evidence g) as [e|a]; simpl; [done|].
    destruct (run gs) as [e|b], (run gs') as [e'|b']; simpl in *; congruence.
  - rewrite !collect_cons.
    destruct (step no_evidence g) as [e|a], (step no_evidence h) as [e'|b];
      simpl; try done.
    + destruct (run gs) as [e|c]; simpl; [done|].
      by rewrite !merge_assoc, (merge_comm b a).
  - destruct (run gs1), (run gs2), (run gs3); simpl in *; try done; congruence.
Qed.

Lemma evidence_of_app df1 df2 :
  expected (df1 ++ df2) = merge (expected df1) (expected df2).
Proof.
  apply evidence_eq; simpl; by rewrite query_app, seq_ids_app.
Qed.

Lemma evidence_of_same_rows df1 df2 :
  (∀ r, r ∈ df1 ↔ r ∈ df2) → expected df1 = expected df2.
Proof.
  intros E. apply evidence_eq; simpl; by apply seq_ids_query_same_rows.
Qed.

(** One group whose rows all carry the group's name. *)
Lemma group_step_spec g :
  (∀ r, r ∈ g.2 → ribozyme r = g.1) →
  step no_evidence g =
  if cutoff_active cfg cutoffs && bool_decide (cutoffs !! g.1 = None)
  then Raise (KeyError g.1) else Ok (expected g.2).
Proof.
  intros Hg. unfold group_step, cutoff_update, dict_get, cutoff_active.
  destruct (use_cm_cutoff cfg && bool_decide (cutoffs ≠ ∅)) eqn:Hact; simpl.
  - destruct (cutoffs !! g.1) as [d|] eqn:Hd; simpl; [|done].
    f_equal. unfold evalue_update, evidence_of, evalue_hits, cutoff_hits.
    destruct (use_evalue_cutoff cfg) eqn:Hev; apply evidence_eq; simpl;
      rewrite ?(left_id_L ∅ (∪)), ?seq_ids_query_or;
      apply seq_ids_query_ext; intros r Hr;
      unfold strand_evidence, significant, above_cutoff, cutoff_active;
      rewrite Hact, Hev, (Hg r Hr), Hd; simpl;
      repeat match goal with |- context [on_strand ?s r] => destruct (on_strand s r) end;
      simpl; rewrite ?orb_false_r; done.
  - f_equal. unfold evalue_update, evidence_of, evalue_hits.
    destruct (use_evalue_cutoff cfg) eqn:Hev; apply evidence_eq; simpl;
      rewrite ?(left_id_L ∅ (∪)).
    1-3: apply seq_ids_query_ext; intros r Hr;
      unfold strand_evidence, significant, cutoff_active; by rewrite Hact, Hev.
    all: symmetry; apply seq_ids_query_false; intros r Hr;
      unfold strand_evidence, significant, cutoff_active; rewrite Hact, Hev;
      simpl; by rewrite ?andb_false_r.
Qed.

Lemma collect_spec_groups gs :
  (∀ g r, g ∈ gs → r ∈ g.2 → ribozyme r = g.1) →
  run gs =
  match (if cutoff_active cfg cutoffs then first_missing cutoffs (fst <$> gs) else None) with
  | Some k => Raise (KeyError k)
  | None => Ok (expected (concat (snd <$> gs)))
  end.
Proof.
  induction gs as [|g gs IH]; intros Hgs.
  - simpl. destruct (cutoff_active cfg cutoffs); f_equal; by apply evidence_eq.
  - rewrite collect_cons, group_step_spec by (intros r; apply Hgs; left).
    rewrite IH by (intros g' r ?; apply Hgs; by right).
    rewrite !fmap_cons. cbn [concat]. unfold first_missing. cbn [List.find].
    destruct (cutoff_active cfg cutoffs); simpl.
    + destruct (bool_decide (cutoffs !! g.1 = None)); simpl; [done|].
      destruct (List.find _ (fst <$> gs)); simpl; [done|].
      by rewrite evidence_of_app.
    + by rewrite evidence_of_app.
Qed.

Lemma fst_groupby df : fst <$> groupby df = group_keys df.
Proof.
  unfold groupby. rewrite <- list_fmap_compose.
  induction (group_keys df) as [|k ks IH]; simpl; [done | by f_equal].
Qed.

Lemma elem_of_concat_groupby df r :
  r ∈ concat (snd <$> groupby df) ↔ r ∈ df.
Proof.
  rewrite elem_of_concat. split.
  - intros (rows & Hr & Hrows). apply list_elem_of_fmap in Hrows as (g & -> & Hg).
    apply elem_of_groupby in Hg as [_ Hg]. rewrite Hg in Hr. simpl in Hr.
    by apply elem_of_query in Hr as [? _].
  - intros Hr. exists (group_of df (ribozyme r)).2. split.
    + simpl. apply elem_of_query. split; [done|]. apply String.eqb_refl.
    + apply list_elem_of_fmap. exists (group_of df (ribozyme r)). split; [done|].
      apply elem_of_groupby. simpl. eauto.
Qed.

(** The loop of [ribozyme_filter] computes [collect_spec]. *)
Lemma collect_groupby df :
  run (groupby df) = collect_spec pow_half cfg cutoffs df.
Proof.
  rewrite collect_spec_groups.
  - unfold collect_spec. rewrite fst_groupby.
    destruct (if cutoff_active cfg cutoffs then _ else _); [done|].
    f_equal. apply evidence_of_same_rows, elem_of_concat_groupby.
  - intros g r Hg Hr. apply elem_of_groupby in Hg as [_ Hg]. rewrite Hg in Hr.
    simpl in Hr. apply elem_of_query in Hr as [_ Hr]. by apply String.eqb_eq in Hr.
Qed.

End Collect.

(** ** The classifier *)

Lemma first_missing_some cutoffs keys k :
  k ∈ keys → cutoffs !! k = None →
  ∃ k', first_missing cutoffs keys = Some k' ∧ k' ∈ keys ∧ cutoffs !! k' = None.
Proof.
  intros Hk Hnone. unfold first_missing.
  destruct (List.find _ keys) as [k'|] eqn:E.
  - apply find_some in E as [Hin Hb]. exists k'.
    split; [done|]. split; [by apply list_elem_of_In | by apply bool_decide_eq_true in Hb].
  - apply list_elem_of_In in Hk. apply (find_none _ _ E) in Hk.
    apply bool_decide_eq_false in Hk. done.
Qed.

Lemma classify_cons pow_half r hits cutoffs cfg :
  classify pow_half (r :: hits) cutoffs cfg =
  bind (collect_spec pow_half cfg cutoffs (r :: hits)) (λ ev, Ok (report (r :: hits) ev)).
Proof.
  unfold classify, analyze, analyze_groups. by rewrite collect_groupby.
Qed.

Lemma size_zero_iff (X : gset string) : size X = 0 ↔ X = ∅.
Proof. rewrite size_empty_iff. by unfold_leibniz. Qed.

Lemma report_none hits ev : report hits ev = None ↔ ribozy_likes_ids ev = ∅.
Proof.
  unfold report. rewrite <- size_zero_iff. case_bool_decide; split; try done.
Qed.

Lemma report_some hits ev :
  ribozy_likes_ids ev ≠ ∅ →
  report hits ev =
  Some (mk_result (loc (single_rz_ids ev) (tag ev <$> hits))
                  (loc (double_rz_ids ev) (tag ev <$> hits))
                  (loc (ribozy_likes_ids ev) (tag ev <$> hits))).
Proof.
  intros H. unfold report. rewrite <- size_zero_iff in H. by case_bool_decide.
Qed.

(** [ribozyme_filter] is [classify] on the cutoffs it loads. *)
Lemma ribozyme_filter_classify pow_half fos hits cm_file cfg :
  hits ≠ [] →
  ribozyme_filter pow_half fos hits cm_file cfg =
  bind (match cm_file with
        | Some lines => if use_cm_cutoff cfg then parse_cm_file fos lines else Ok ∅
        | None => Ok ∅
        end)
       (λ cutoffs, classify pow_half hits cutoffs cfg).
Proof.
  intros Hne. destruct hits as [|r hits]; [done|]. reflexivity.
Qed.

(** The dictionary that [parse_cm_file] returns is never empty, so with a
    CM file the guard [use_cm_cutoff and cutoffs] is [use_cm_cutoff]. *)
Lemma parse_cm_file_non_empty fos lines t :
  parse_cm_file fos lines = Ok t → t ≠ ∅.
Proof.
  unfold parse_cm_file. intros H. apply bind_ok_inv in H as (st & _ & [= <-]).
  apply insert_non_empty.
Qed.

(** C1, as amended: a hit of a profile that a non-empty cutoff dictionary
    does not list makes [classify] raise [KeyError] when [use_cm_cutoff]
    is set, whatever the e-value option: the name raised is the first
    unlisted profile in group order. *)
Theorem classify_missing_cutoff_raises pow_half hits cutoffs cfg r :
  use_cm_cutoff cfg = true → cutoffs ≠ ∅ →
  r ∈ hits → cutoffs !! ribozyme r = None →
  ∃ k, classify pow_half hits cutoffs cfg = Raise (KeyError k) ∧
       first_missing cutoffs (group_keys hits) = Some k ∧
       (∃ r', r' ∈ hits ∧ ribozyme r' = k) ∧ cutoffs !! k = None.
Proof.
  intros Huse Hne Hr Hnone.
  destruct hits as [|r0 hits]; [inversion Hr|].
  assert (Hk : ribozyme r ∈ group_keys (r0 :: hits)) by (apply elem_of_group_keys; eauto).
  destruct (first_missing_some cutoffs _ _ Hk Hnone) as (k & Hfind & Hin & Hmiss).
  exists k. rewrite classify_cons. unfold collect_spec, cutoff_active.
  rewrite Huse, bool_decide_eq_true_2 by done. simpl. rewrite Hfind. simpl.
  repeat split; try done. by apply elem_of_group_keys.
Qed.

Lemma classify_missing_cutoff_raises_witness :
  ∃ k, classify ieee_pow_half hammerhead_hits twister_cutoffs default_config
       = Raise (KeyError k) ∧
       first_missing twister_cutoffs (group_keys hammerhead_hits) = Some k ∧
       (∃ r', r' ∈ hammerhead_hits ∧ ribozyme r' = k) ∧ twister_cutoffs !! k = None.
Proof.
  apply (classify_missing_cutoff_raises ieee_pow_half hammerhead_hits twister_cutoffs
           default_config hammerhead_hit).
  - reflexivity.
  - intros E. apply (f_equal (λ m, m !! "Twister-P5")) in E. vm_compute in E. discriminate.
  - left.
  - vm_compute. reflexivity.
Defined.

(** C1, as stated, fails: the run below has a profile without a cutoff
    entry, a non-empty cutoff dictionary and [use_cm_cutoff] set, and it
    does not complete. *)
Lemma missing_cutoff_is_fatal :
  (∃ r, r ∈ hammerhead_hits ∧ twister_cutoffs !! ribozyme r = None) ∧
  twister_cutoffs ≠ ∅ ∧
  use_cm_cutoff default_config = true ∧
  use_evalue_cutoff default_config = true ∧
  classify ieee_pow_half hammerhead_hits twister_cutoffs default_config
    = Raise (KeyError "Hammerhead_3") ∧
  ¬ is_ok (classify ieee_pow_half hammerhead_hits twister_cutoffs default_config).
Proof.
  split; [|split; [|split; [|split; [|split]]]].
  - eexists. split; [left|]. vm_compute. reflexivity.
  - intros E. apply (f_equal (λ m, m !! "Twister-P5")) in E. vm_compute in E. discriminate.
  - reflexivity.
  - reflexivity.
  - vm_compute. reflexivity.
  - vm_compute. intros [].
Qed.

(** C2, as amended: [classify] has three outcomes.  It returns [None]
    exactly when the table is empty or the loop ran through all groups and
    left no viroid-like identifier; it returns a result exactly when the
    table is not empty, the loop ran through and some identifier is
    viroid-like; it raises exactly when the table is not empty and the
    loop raised. *)
Theorem classify_outcomes pow_half hits cutoffs cfg :
  (classify pow_half hits cutoffs cfg = Ok None ↔
     hits = [] ∨
     ∃ ev, collect pow_half cfg cutoffs (groupby hits) = Ok ev ∧ ribozy_likes_ids ev = ∅) ∧
  ((∃ res, classify pow_half hits cutoffs cfg = Ok (Some res)) ↔
     hits ≠ [] ∧
     ∃ ev, collect pow_half cfg cutoffs (groupby hits) = Ok ev ∧ ribozy_likes_ids ev ≠ ∅) ∧
  (∀ e, classify pow_half hits cutoffs cfg = Raise e ↔
     hits ≠ [] ∧ collect pow_half cfg cutoffs (groupby hits) = Raise e).
Proof.
  destruct hits as [|r hits].
  - simpl. split; [|split].
    + split; [by left | done].
    + split; [intros [res H]; discriminate | intros [H _]; done].
    + intros e. split; [discriminate | intros [H _]; done].
  - unfold classify, analyze, analyze_groups.
    destruct (collect pow_half cfg cutoffs (groupby (r :: hits))) as [e|ev]; simpl.
    + split; [|split].
      * split; [discriminate | intros [?|(ev & ? & _)]; discriminate].
      * split; [intros [res H]; discriminate | intros [_ (ev & ? & _)]; discriminate].
      * intros e'. split; [intros [= ->]; done | intros [_ [= ->]]; done].
    + split; [|split].
      * split.
        -- intros [= H]. right. exists ev. split; [done|]. by apply report_none in H.
        -- intros [?|(ev' & [= <-] & H)]; [discriminate|].
           apply (report_none (r :: hits)) in H. unfold Ok. by rewrite H.
      * split.
        -- intros [res [= H]]. split; [done|]. exists ev. split; [done|].
           intros E. apply (report_none (r :: hits)) in E. congruence.
        -- intros [_ (ev' & [= <-] & H)]. rewrite report_some by done. eauto.
      * intros e. split; [discriminate | intros [_ ?]; discriminate].
Qed.

(** C2, as stated, fails: the table below is not empty and [classify]
    neither returns [None] nor returns a result; it raises. *)
Lemma classify_third_outcome :
  hammerhead_hits ≠ [] ∧
  classify ieee_pow_half hammerhead_hits twister_cutoffs cutoff_only ≠ Ok None ∧
  (∀ res, classify ieee_pow_half hammerhead_hits twister_cutoffs cutoff_only
          ≠ Ok (Some res)) ∧
  classify ieee_pow_half hammerhead_hits twister_cutoffs cutoff_only
    = Raise (KeyError "Hammerhead_3").
Proof.
  assert (E : classify ieee_pow_half hammerhead_hits twister_cutoffs cutoff_only
              = Raise (KeyError "Hammerhead_3")) by (vm_compute; reflexivity).
  rewrite E. split; [done|]. split; [done|]. split; [intros res; done | done].
Qed.

(** ** The derived sets *)

Lemma evidence_of_ids pow_half cfg cutoffs hits :
  let ev := evidence_of pow_half cfg cutoffs hits in
  rz_plus ev ⊆ seq_ids hits ∧ rz_minus ev ⊆ seq_ids hits ∧
  rz_significant ev ⊆ seq_ids hits.
Proof.
  simpl. repeat split; intros s Hs; apply elem_of_seq_ids_query in Hs as (r & ? & _ & ?);
    apply elem_of_seq_ids; eauto.
Qed.

Lemma row_ids_loc ev ids hits :
  ids ⊆ seq_ids hits → row_ids (loc ids (tag ev <$> hits)) = ids.
Proof.
  intros Hsub. apply set_eq. intros s. unfold row_ids, loc.
  rewrite elem_of_seq_ids. split.
  - intros (r & Hr & <-). apply list_elem_of_fmap in Hr as (row & -> & Hrow).
    apply list_elem_of_In, filter_In in Hrow as [_ Hin].
    by apply bool_decide_eq_true in Hin.
  - intros Hs. destruct (proj1 (elem_of_seq_ids _ _) (Hsub _ Hs)) as (r & Hr & <-).
    exists r. split; [|done]. apply list_elem_of_fmap. exists (tag ev r).
    split; [done|]. apply list_elem_of_In, filter_In. split.
    + apply list_elem_of_In, list_elem_of_fmap. eauto.
    + simpl. by apply bool_decide_eq_true.
Qed.

(** C5.  Whenever the loop runs through, the derived sets are the
    intersection, the difference and the union of the evidence sets, the
    single- and dual-polarity sets are disjoint, and the frames returned by
    [classify] hold exactly the rows of these identifiers. *)
Theorem derived_sets pow_half hits cutoffs cfg ev :
  collect pow_half cfg cutoffs (groupby hits) = Ok ev →
  double_rz_ids ev = rz_plus ev ∩ rz_minus ev ∧
  single_rz_ids ev = rz_significant ev ∖ double_rz_ids ev ∧
  ribozy_likes_ids ev = double_rz_ids ev ∪ single_rz_ids ev ∧
  single_rz_ids ev ∩ double_rz_ids ev = ∅ ∧
  (∀ res, classify pow_half hits cutoffs cfg = Ok (Some res) →
     row_ids (single_rzs res) = single_rz_ids ev ∧
     row_ids (double_rzs res) = double_rz_ids ev ∧
     row_ids (ribozy_likes res) = ribozy_likes_ids ev ∧
     row_ids (single_rzs res) ∩ row_ids (double_rzs res) = ∅).
Proof.
  intros Hev. split; [done|]. split; [done|]. split; [done|].
  assert (Hdisj : single_rz_ids ev ∩ double_rz_ids ev = ∅).
  { unfold single_rz_ids. set_solver. }
  split; [done|]. intros res Hres.
  assert (Hrep : report hits ev = Some res).
  { destruct hits as [|r hits]; [discriminate|].
    unfold classify, analyze, analyze_groups in Hres.
    rewrite Hev, bind_ok in Hres. by injection Hres. }
  rewrite collect_groupby in Hev. unfold collect_spec in Hev.
  destruct (if cutoff_active cfg cutoffs then _ else _); [discriminate|].
  injection Hev as <-.
  destruct (evidence_of_ids pow_half cfg cutoffs hits) as (Hp & Hm & Hs).
  set (ev := evidence_of pow_half cfg cutoffs hits) in *.
  unfold report in Hrep. case_bool_decide; [discriminate|].
  injection Hrep as <-. cbn [single_rzs double_rzs ribozy_likes].
  rewrite !row_ids_loc; [done| | |];
    unfold ribozy_likes_ids, single_rz_ids, double_rz_ids; set_solver.
Qed.

Lemma derived_sets_witness :
  ∃ ev, collect ieee_pow_half cutoff_only twister_cutoffs (groupby twister_hits) = Ok ev ∧
        single_rz_ids ev ∩ double_rz_ids ev = ∅.
Proof.
  eexists. split; [vm_compute; reflexivity|].
  eapply (derived_sets ieee_pow_half twister_hits twister_cutoffs cutoff_only).
  vm_compute. reflexivity.
Defined.

(** C9.  With the cutoff test off (or an empty cutoff dictionary) and the
    e-value test off, the loop leaves the three sets empty and [classify]
    returns [None] on any table that is not empty. *)
Theorem no_filter_no_result pow_half hits cutoffs cfg :
  hits ≠ [] →
  use_cm_cutoff cfg = false ∨ cutoffs = ∅ →
  use_evalue_cutoff cfg = false →
  collect pow_half cfg cutoffs (groupby hits) = Ok no_evidence ∧
  classify pow_half hits cutoffs cfg = Ok None.
Proof.
  intros Hne Hcut Hev.
  assert (Hact : cutoff_active cfg cutoffs = false).
  { unfold cutoff_active. destruct Hcut as [->| ->]; [done|].
    rewrite bool_decide_eq_false_2 by (intros H; by apply H). apply andb_false_r. }
  assert (E : collect pow_half cfg cutoffs (groupby hits) = Ok no_evidence).
  { rewrite collect_groupby. unfold collect_spec. rewrite Hact. f_equal.
    apply evidence_eq; simpl; apply seq_ids_query_false; intros r _;
      unfold strand_evidence, significant; rewrite Hact, Hev; simpl;
      by rewrite ?andb_false_r. }
  split; [done|]. destruct hits as [|r hits]; [done|].
  unfold classify, analyze, analyze_groups. rewrite E. simpl. f_equal.
Qed.

Lemma no_filter_no_result_witness :
  collect ieee_pow_half no_filter twister_cutoffs (groupby twister_hits) = Ok no_evidence ∧
  classify ieee_pow_half twister_hits twister_cutoffs no_filter = Ok None.
Proof.
  apply (no_filter_no_result ieee_pow_half twister_hits twister_cutoffs no_filter).
  - discriminate.
  - left. reflexivity.
  - reflexivity.
Defined.

(** ** The tests of one group *)

Lemma on_strand_true s r : strand r = s → on_strand s r = true.
Proof. intros <-. apply String.eqb_refl. Qed.

Lemma elem_of_strand_query sign (f : HitRecord → bool) rows s :
  s ∈ seq_ids (query (λ r, on_strand sign r && f r) rows) ↔
  ∃ r, r ∈ rows ∧ seq_id r = s ∧ strand r = sign ∧ f r = true.
Proof.
  rewrite elem_of_seq_ids_query. unfold on_strand. split.
  - intros (r & Hr & Hp & Hs). apply andb_true_iff in Hp as [Hp Hf].
    apply String.eqb_eq in Hp. eauto.
  - intros (r & Hr & Hs & Hp & Hf). exists r. split; [done|]. split; [|done].
    apply andb_true_iff. split; [by apply String.eqb_eq | done].
Qed.

Lemma elem_of_plain_query (f : HitRecord → bool) rows s :
  s ∈ seq_ids (query f rows) ↔ ∃ r, r ∈ rows ∧ seq_id r = s ∧ f r = true.
Proof.
  rewrite elem_of_seq_ids_query. split; intros (r & ? & ? & ?); eauto.
Qed.




(** C4, as amended.  In the turn of a group, with [use_evalue_cutoff] set,
    the e-value test adds to [rz_plus] ([rz_minus]) exactly the
    identifiers of the group's rows on the plus (minus) strand whose
    e-value is strictly below [max_evalue ** 0.5], and to [rz_significant]
    exactly those of its rows whose e-value is strictly below
    [max_evalue].  So a row at or above [max_evalue] is not made
    significant by this test: its identifier is in [rz_significant] after
    the turn only if the cutoff test left it there or another row of the
    group with this identifier is below [max_evalue]. *)
Theorem evalue_test_adds pow_half cfg cutoffs ev ev1 g :
  use_evalue_cutoff cfg = true →
  cutoff_update cfg cutoffs ev g = Ok ev1 →
  ∃ ev',
    group_step pow_half cfg cutoffs ev g = Ok ev' ∧
    (∀ s, s ∈ rz_plus ev' ↔
          s ∈ rz_plus ev1 ∨
          ∃ r, r ∈ g.2 ∧ seq_id r = s ∧ strand r = "+" ∧
               PrimFloat.ltb (evalue r) (pow_half (max_evalue cfg)) = true) ∧
    (∀ s, s ∈ rz_minus ev' ↔
          s ∈ rz_minus ev1 ∨
          ∃ r, r ∈ g.2 ∧ seq_id r = s ∧ strand r = "-" ∧
               PrimFloat.ltb (evalue r) (pow_half (max_evalue cfg)) = true) ∧
    (∀ s, s ∈ rz_significant ev' ↔
          s ∈ rz_significant ev1 ∨
          ∃ r, r ∈ g.2 ∧ seq_id r = s ∧
               PrimFloat.ltb (evalue r) (max_evalue cfg) = true) ∧
    (∀ r, r ∈ g.2 →
          PrimFloat.ltb (evalue r) (max_evalue cfg) = false →
          seq_id r ∉ rz_significant ev1 →
          (∀ r', r' ∈ g.2 → seq_id r' = seq_id r →
                 PrimFloat.ltb (evalue r') (max_evalue cfg) = false) →
          seq_id r ∉ rz_significant ev').
Proof.
  intros Huse Hcut. unfold group_step. rewrite Hcut, bind_ok.
  eexists. split; [reflexivity|].
  unfold evalue_update. rewrite Huse.
  assert (Hsig : ∀ s,
    s ∈ rz_significant (merge ev1 (evalue_hits pow_half cfg g.2)) ↔
    s ∈ rz_significant ev1 ∨
    ∃ r, r ∈ g.2 ∧ seq_id r = s ∧ PrimFloat.ltb (evalue r) (max_evalue cfg) = true).
  { intros s. cbn [merge evalue_hits rz_significant].
    rewrite elem_of_union, elem_of_plain_query. done. }
  split; [|split; [|split; [exact Hsig|]]].
  - intros s. cbn [merge evalue_hits rz_plus].
    rewrite elem_of_union, (elem_of_strand_query "+"). done.
  - intros s. cbn [merge evalue_hits rz_minus].
    rewrite elem_of_union, (elem_of_strand_query "-"). done.
  - intros r Hr Hhigh Hprev Hothers Hin.
    apply Hsig in Hin as [Hin|(r' & Hr' & Hid & Hlow)]; [done|].
    rewrite (Hothers r' Hr' Hid) in Hlow. discriminate Hlow.
Qed.

(** Scenario B of the specification, run on the model with the cutoff
    test off. *)
Lemma evalue_test_adds_witness :
  ∃ ev', group_step ieee_pow_half evalue_only twister_cutoffs no_evidence
           ("Twister-P5", evalue_hits_sample) = Ok ev' ∧
         "seq1" ∈ rz_significant ev' ∧
         "seq2" ∈ rz_plus ev' ∧
         ("seq2" ∉ rz_significant ev').
Proof.
  destruct (evalue_test_adds ieee_pow_half evalue_only twister_cutoffs no_evidence
              no_evidence ("Twister-P5", evalue_hits_sample))
    as (ev' & Hstep & Hplus & _ & Hsig & Hnever).
  - reflexivity.
  - reflexivity.
  - exists ev'. split; [exact Hstep|]. clear Hstep. split; [|split].
    + apply Hsig. right. exists (sample_hit "seq1" "Twister-P5" "+" 10 0.001).
      split; [left|]. vm_compute. repeat split; reflexivity.
    + apply Hplus. right. exists (sample_hit "seq2" "Twister-P5" "+" 10 0.05).
      split; [right; left|]. vm_compute. repeat split; reflexivity.
    + apply (Hnever (sample_hit "seq2" "Twister-P5" "+" 10 0.05)).
      * right. left.
      * vm_compute. reflexivity.
      * apply not_elem_of_empty.
      * intros r' Hr' Hid. cbn [snd] in Hr'. unfold evalue_hits_sample in Hr'.
        apply elem_of_cons in Hr' as [->|Hr'].
        -- vm_compute in Hid. discriminate Hid.
        -- apply elem_of_cons in Hr' as [->|Hr']; [|inversion Hr'].
           vm_compute. reflexivity.
Defined.

(** C4, as stated, fails: with the default options, [strong_hit] has an
    e-value at or above [max_evalue] and below its root, and its
    identifier is in [rz_significant] all the same, put there by the
    cutoff test on its score. *)
Lemma evalue_between_yet_significant :
  use_evalue_cutoff default_config = true ∧
  PrimFloat.ltb (evalue strong_hit) (max_evalue default_config) = false ∧
  PrimFloat.ltb (evalue strong_hit) (ieee_pow_half (max_evalue default_config)) = true ∧
  ∃ ev,
    collect ieee_pow_half default_config twister_cutoffs (groupby [strong_hit]) = Ok ev ∧
    seq_id strong_hit ∈ rz_plus ev ∧
    seq_id strong_hit ∈ rz_significant ev.
Proof.
  split; [reflexivity|]. split; [vm_compute; reflexivity|].
  split; [vm_compute; reflexivity|].
  exists (evidence_of ieee_pow_half default_config twister_cutoffs [strong_hit]).
  split; [rewrite collect_groupby; vm_compute; reflexivity|].
  split.
  - apply (elem_of_strand_query "+"). exists strong_hit.
    split; [left|]. vm_compute. repeat split; reflexivity.
  - apply elem_of_plain_query. exists strong_hit. split; [left|]. vm_compute. repeat split; reflexivity.
Qed.

(** ** Monotonicity in [max_evalue] *)

Lemma seq_ids_query_mono p q df :
  (∀ r, r ∈ df → p r = true → q r = true) →
  seq_ids (query p df) ⊆ seq_ids (query q df).
Proof.
  intros Hpq s. rewrite !elem_of_seq_ids_query.
  intros (r & Hr & Hp & Hs). exists r. auto.
Qed.

Lemma ribozy_likes_ids_mono ev1 ev2 :
  rz_plus ev1 ⊆ rz_plus ev2 → rz_minus ev1 ⊆ rz_minus ev2 →
  rz_significant ev1 ⊆ rz_significant ev2 →
  ribozy_likes_ids ev1 ⊆ ribozy_likes_ids ev2.
Proof.
  intros Hp Hm Hs s. unfold ribozy_likes_ids, single_rz_ids, double_rz_ids.
  destruct (decide (s ∈ rz_plus ev2 ∩ rz_minus ev2)); set_solver.
Qed.

(** C6.  Two runs that differ in [max_evalue] only, [m1 ≤ m2] with
    [0 < m1], end alike: both raise the same exception, or both run
    through.  In the latter case the significant identifiers found under
    [m1] are among those found under [m2]; so are the viroid-like
    identifiers, as soon as the power function of the C library keeps the
    order of [m1] and [m2] (any monotone root does).  Hence neither set is
    larger under [m1]. *)
Theorem max_evalue_monotone pow_half hits cutoffs cfg m1 m2 :
  flt 0 m1 = true →
  fle m1 m2 = true →
  match collect pow_half (with_max_evalue cfg m1) cutoffs (groupby hits),
        collect pow_half (with_max_evalue cfg m2) cutoffs (groupby hits) with
  | inr ev1, inr ev2 =>
      (rz_significant ev1 ⊆ rz_significant ev2 ∧
       size (rz_significant ev1) ≤ size (rz_significant ev2)) ∧
      (fle (pow_half m1) (pow_half m2) = true →
       ribozy_likes_ids ev1 ⊆ ribozy_likes_ids ev2 ∧
       size (ribozy_likes_ids ev1) ≤ size (ribozy_likes_ids ev2))
  | inl e1, inl e2 => e1 = e2
  | _, _ => False
  end.
Proof.
  intros _ Hle. rewrite !collect_groupby. unfold collect_spec.
  change (cutoff_active (with_max_evalue cfg m1) cutoffs) with (cutoff_active cfg cutoffs).
  change (cutoff_active (with_max_evalue cfg m2) cutoffs) with (cutoff_active cfg cutoffs).
  destruct (if cutoff_active cfg cutoffs then _ else _); simpl; [done|].
  assert (Hs : ∀ r, significant (with_max_evalue cfg m1) cutoffs r = true →
                    significant (with_max_evalue cfg m2) cutoffs r = true).
  { intros r. unfold significant, above_cutoff. simpl.
    change (cutoff_active (with_max_evalue cfg m1) cutoffs) with (cutoff_active cfg cutoffs).
    change (cutoff_active (with_max_evalue cfg m2) cutoffs) with (cutoff_active cfg cutoffs).
    rewrite !orb_true_iff, !andb_true_iff.
    intros [?|[? H]]; [by left | right; split; [done|]].
    by apply (flt_fle_trans _ m1). }
  assert (Hsig : rz_significant (evidence_of pow_half (with_max_evalue cfg m1) cutoffs hits)
               ⊆ rz_significant (evidence_of pow_half (with_max_evalue cfg m2) cutoffs hits)).
  { apply seq_ids_query_mono. intros r _. apply Hs. }
  split; [split; [done | by apply subseteq_size]|].
  intros Hpow.
  assert (He : ∀ r, strand_evidence pow_half (with_max_evalue cfg m1) cutoffs r = true →
                    strand_evidence pow_half (with_max_evalue cfg m2) cutoffs r = true).
  { intros r. unfold strand_evidence, above_cutoff. simpl.
    change (cutoff_active (with_max_evalue cfg m1) cutoffs) with (cutoff_active cfg cutoffs).
    change (cutoff_active (with_max_evalue cfg m2) cutoffs) with (cutoff_active cfg cutoffs).
    rewrite !orb_true_iff, !andb_true_iff.
    intros [?|[? H]]; [by left | right; split; [done|]].
    by apply (flt_fle_trans _ (pow_half m1)). }
  assert (Hlikes : ribozy_likes_ids (evidence_of pow_half (with_max_evalue cfg m1) cutoffs hits)
               ⊆ ribozy_likes_ids (evidence_of pow_half (with_max_evalue cfg m2) cutoffs hits)).
  { apply ribozy_likes_ids_mono; [| |done]; apply seq_ids_query_mono; intros r _;
      rewrite !andb_true_iff; intros [? ?]; split; auto. }
  split; [done | by apply subseteq_size].
Qed.

Lemma max_evalue_monotone_witness :
  ∃ ev1 ev2,
    collect ieee_pow_half (with_max_evalue evalue_only 0.01) twister_cutoffs
      (groupby evalue_hits_sample) = Ok ev1 ∧
    collect ieee_pow_half (with_max_evalue evalue_only 0.1) twister_cutoffs
      (groupby evalue_hits_sample) = Ok ev2 ∧
    rz_significant ev1 ⊆ rz_significant ev2 ∧
    ribozy_likes_ids ev1 ⊆ ribozy_likes_ids ev2.
Proof.
  assert (H := max_evalue_monotone ieee_pow_half evalue_hits_sample twister_cutoffs
                 evalue_only 0.01 0.1 eq_refl eq_refl).
  destruct (collect ieee_pow_half (with_max_evalue evalue_only 0.01) twister_cutoffs
              (groupby evalue_hits_sample)) as [e1|ev1] eqn:E1;
  destruct (collect ieee_pow_half (with_max_evalue evalue_only 0.1) twister_cutoffs
              (groupby evalue_hits_sample)) as [e2|ev2] eqn:E2.
  - vm_compute in E1. discriminate.
  - destruct H.
  - destruct H.
  - destruct H as [[Hsig _] Hlikes]. exists ev1, ev2.
    split; [done|]. split; [done|]. split; [done|].
    apply Hlikes. vm_compute. reflexivity.
Defined.

(** ** The order of the groups *)

Lemma reduce_collect pow_half cfg cutoffs parts :
  reduce (collect pow_half cfg cutoffs <$> parts) =
  collect pow_half cfg cutoffs (concat parts).
Proof.
  induction parts as [|gs parts IH]; [done|].
  rewrite fmap_cons. cbn [reduce foldr concat]. fold (reduce (collect pow_half cfg cutoffs <$> parts)).
  by rewrite IH, collect_app.
Qed.

Lemma same_outcome_bind {A B} (x y : result A) (k : A → result B) :
  same_outcome x y → same_outcome (bind x k) (bind y k).
Proof.
  destruct x as [e|a], y as [e'|b]; simpl; try done.
  intros ->. by destruct (k b).
Qed.

(** C8.  The groups may be taken in any order, and they may be split into
    parts that are run apart and merged by union: the run raises in both
    readings or returns the same three sets, and with them the same value
    of the whole filter. *)
Theorem group_order_irrelevant pow_half cfg cutoffs hits gs gs' parts :
  Permutation gs gs' →
  Permutation (concat parts) gs →
  same_outcome (collect pow_half cfg cutoffs gs) (collect pow_half cfg cutoffs gs') ∧
  same_outcome (collect pow_half cfg cutoffs gs)
               (reduce (collect pow_half cfg cutoffs <$> parts)) ∧
  same_outcome (analyze_groups pow_half gs hits cutoffs cfg)
               (analyze_groups pow_half gs' hits cutoffs cfg) ∧
  same_outcome (analyze_groups pow_half gs hits cutoffs cfg)
               (bind (reduce (collect pow_half cfg cutoffs <$> parts))
                     (λ ev, Ok (report hits ev))).
Proof.
  intros Hperm Hparts.
  assert (H1 := collect_perm pow_half cfg cutoffs _ _ Hperm).
  assert (H2 : same_outcome (collect pow_half cfg cutoffs gs)
                 (reduce (collect pow_half cfg cutoffs <$> parts))).
  { rewrite reduce_collect. apply collect_perm. by symmetry. }
  split; [done|]. split; [done|]. split; by apply same_outcome_bind.
Qed.

Lemma group_order_irrelevant_witness :
  same_outcome
    (collect ieee_pow_half default_config twister_cutoffs
       [("Twister-P5", twister_hits); ("Twister-P5", evalue_hits_sample)])
    (collect ieee_pow_half default_config twister_cutoffs
       [("Twister-P5", evalue_hits_sample); ("Twister-P5", twister_hits)]).
Proof.
  exact (proj1 (group_order_irrelevant ieee_pow_half default_config twister_cutoffs
            (twister_hits ++ evalue_hits_sample)
            [("Twister-P5", twister_hits); ("Twister-P5", evalue_hits_sample)]
            [("Twister-P5", evalue_hits_sample); ("Twister-P5", twister_hits)]
            [[("Twister-P5", twister_hits)]; [("Twister-P5", evalue_hits_sample)]]
            (perm_swap _ _ _) (Permutation_refl _))).
Defined.

(** ** The cutoff parser *)

Section ParserFacts.

Variable float_of_string : string → option float.

Abbreviation step_line := (parse_line float_of_string).

(** [parse_line], one branch per kind of line. *)
Lemma parse_line_kind st line :
  step_line st line =
  match kind_of line with
  | Sentinel =>
      Ok (mk_state
            (if String.eqb (last_name st) EmptyString then cutoffs_of st
             else <[last_name st := last_cutoff st]> (cutoffs_of st))
            EmptyString zero_cutoff)
  | NameLine =>
      bind (getitem (split line) 1)
           (λ name, Ok (mk_state (cutoffs_of st) name (last_cutoff st)))
  | CutLine t =>
      bind (getitem (split line) 1) (λ tok,
      bind (to_float float_of_string tok) (λ v,
      Ok (mk_state (cutoffs_of st) (last_name st) (cutoff_set (last_cutoff st) t v))))
  | OtherLine => Ok st
  end.
Proof.
  unfold parse_line, kind_of.
  destruct (contains "INFERNAL" line); [done|].
  destruct (startswith "NAME" line); [done|].
  destruct (startswith "GA" line); [done|].
  destruct (startswith "TC" line); [done|].
  by destruct (startswith "NC" line).
Qed.

Lemma second_tokens_snoc k body line :
  second_tokens k (body ++ [line]) =
  second_tokens k body ++ (if bool_decide (kind_of line = k) then [split line !! 1] else []).
Proof.
  unfold second_tokens. rewrite List.filter_app, fmap_app. simpl.
  by destruct (bool_decide (kind_of line = k)).
Qed.

(** The loop over the lines of one block: no sentinel, no line that
    raises. *)
Lemma parse_block st body :
  Forall (λ l, kind_of l ≠ Sentinel) body →
  Forall (λ l, line_ok float_of_string l = true) body →
  foldM step_line st body =
  Ok (mk_state (cutoffs_of st) (name_after st body)
        (mk_cutoff (value_after float_of_string st GA body)
                   (value_after float_of_string st TC body)
                   (value_after float_of_string st NC body))).
Proof.
  induction body as [|line body IH] using rev_ind; intros Hns Hok.
  - simpl. by destruct st as [c n [ga tc nc]].
  - apply Forall_app in Hns as [Hns Hl]. apply Forall_app in Hok as [Hok Hlok].
    rewrite Forall_singleton in Hl. rewrite Forall_singleton in Hlok.
    rewrite foldM_app, IH, bind_ok by done. cbn [foldM].
    rewrite parse_line_kind. unfold name_after, value_after.
    rewrite !second_tokens_snoc. unfold line_ok in Hlok. simpl in Hl.
    destruct (kind_of line) as [| |t|] eqn:Hk; [congruence| | |].
    + apply bool_decide_eq_true in Hlok as [name Hname].
      unfold getitem. rewrite Hname. simpl.
      rewrite last_snoc, !app_nil_r. done.
    + apply bool_decide_eq_true in Hlok as [v Hv].
      destruct (split line !! 1) as [tok|] eqn:Htok; [|done]. simpl in Hv.
      unfold getitem, to_float. rewrite Htok. simpl. rewrite Hv. simpl.
      rewrite app_nil_r.
      destruct t; simpl; rewrite ?last_snoc, ?app_nil_r; simpl; rewrite ?Hv; done.
    + simpl. by rewrite !app_nil_r.
Qed.

Lemma parse_sentinel st line :
  kind_of line = Sentinel →
  step_line st line =
  Ok (mk_state
        (if String.eqb (last_name st) EmptyString then cutoffs_of st
         else <[last_name st := last_cutoff st]> (cutoffs_of st))
        EmptyString zero_cutoff).
Proof. intros H. by rewrite parse_line_kind, H. Qed.

End ParserFacts.

Lemma second_tokens_none k body :
  Forall (λ l, kind_of l ≠ k) body → second_tokens k body = [].
Proof.
  induction 1 as [|l body Hl _ IH]; [done|].
  unfold second_tokens in *. simpl. by rewrite bool_decide_eq_false_2.
Qed.

Lemma value_after_block fos st t body v :
  cutoff_get (last_cutoff st) t = 0%float →
  block_value fos t body = Some v → value_after fos st t body = v.
Proof.
  unfold block_value, value_after. intros Hz.
  destruct (last (second_tokens (CutLine t) body)) as [tok|].
  - by intros ->.
  - rewrite Hz. by intros [= <-].
Qed.

Lemma block_cutoff_inv fos body c :
  block_cutoff fos body = Some c →
  block_value fos GA body = Some (cut_GA c) ∧
  block_value fos TC body = Some (cut_TC c) ∧
  block_value fos NC body = Some (cut_NC c).
Proof.
  unfold block_cutoff.
  destruct (block_value fos GA body) as [ga|]; [|done].
  destruct (block_value fos TC body) as [tc|]; [|done].
  destruct (block_value fos NC body) as [nc|]; [|done].
  simpl. by intros [= <-].
Qed.

(** A block run from loop variables that hold no cutoff yet. *)
Lemma parse_fresh_block fos st body c :
  last_cutoff st = zero_cutoff →
  Forall (λ l, kind_of l ≠ Sentinel) body →
  Forall (λ l, line_ok fos l = true) body →
  block_cutoff fos body = Some c →
  foldM (parse_line fos) st body = Ok (mk_state (cutoffs_of st) (name_after st body) c).
Proof.
  intros Hz Hns Hok Hc. rewrite parse_block by done.
  apply block_cutoff_inv in Hc as (Hga & Htc & Hnc).
  assert (Hzero : ∀ t, cutoff_get (last_cutoff st) t = 0%float)
    by (intros t; rewrite Hz; by destruct t).
  rewrite (value_after_block _ _ _ _ _ (Hzero GA) Hga),
          (value_after_block _ _ _ _ _ (Hzero TC) Htc),
          (value_after_block _ _ _ _ _ (Hzero NC) Hnc).
  by destruct c.
Qed.

(** C7.  A file that holds one profile block, with or without the
    sentinel line in front, and no sentinel after it, yields the table
    with the single entry of the block: its [NAME], and for each of [GA],
    [TC], [NC] the value on the block's line of that kind, [0.0] where the
    block has no such line. *)
Theorem parse_cm_file_single_block fos head body name c :
  head = [] ∨ (∃ s, head = [s] ∧ kind_of s = Sentinel) →
  Forall (λ l, kind_of l ≠ Sentinel) body →
  Forall (λ l, line_ok fos l = true) body →
  block_name body = Some name →
  block_cutoff fos body = Some c →
  parse_cm_file fos (head ++ body) = Ok {[ name := c ]}.
Proof.
  intros Hhead Hns Hok Hname Hc. unfold parse_cm_file.
  assert (Hpre : foldM (parse_line fos) initial_state head = Ok initial_state).
  { destruct Hhead as [->|(s & -> & Hs)]; [done|].
    simpl. by rewrite parse_sentinel. }
  rewrite foldM_app, Hpre, bind_ok, (parse_fresh_block fos _ _ c), bind_ok by done.
  unfold flush, name_after. simpl.
  unfold block_name in Hname.
  destruct (last (second_tokens NameLine body)) as [tok|]; [|done].
  by rewrite Hname.
Qed.

Lemma parse_cm_file_single_block_witness :
  parse_cm_file decimal_float twister_cm
  = Ok {[ "Twister-P5" := mk_cutoff 45 45.3 0 ]}.
Proof.
  apply (parse_cm_file_single_block decimal_float [sentinel_line] twister_block
           "Twister-P5" (mk_cutoff 45 45.3 0)).
  - right. eexists. split; [reflexivity|]. vm_compute. reflexivity.
  - repeat constructor; vm_compute; discriminate.
  - repeat constructor.
  - vm_compute. reflexivity.
  - vm_compute. reflexivity.
Defined.

(** C10, as amended: when no [NAME] line follows the last sentinel, and
    the lines parse, the table has an entry under the empty name; its
    [GA], [TC] and [NC] are the values on the cutoff lines that follow the
    last sentinel, [0.0] for a kind without a line, hence all [0.0] when
    no cutoff line follows it. *)
Theorem parse_cm_file_nameless_tail fos pre tail c :
  is_ok (parse_cm_file fos pre) →
  pre = [] ∨ (∃ pre' s, pre = pre' ++ [s] ∧ kind_of s = Sentinel) →
  Forall (λ l, kind_of l ≠ Sentinel) tail →
  Forall (λ l, kind_of l ≠ NameLine) tail →
  Forall (λ l, line_ok fos l = true) tail →
  block_cutoff fos tail = Some c →
  ∃ t, parse_cm_file fos (pre ++ tail) = Ok t ∧
       t !! EmptyString = Some c ∧
       (Forall (λ l, kind_of l = OtherLine) tail → c = zero_cutoff).
Proof.
  intros Hpre Hshape Hns Hnn Hok Hc.
  assert (Hst : ∃ st, foldM (parse_line fos) initial_state pre = Ok st ∧
                      last_name st = EmptyString ∧ last_cutoff st = zero_cutoff).
  { destruct Hshape as [->|(pre' & s & -> & Hs)].
    - by exists initial_state.
    - unfold parse_cm_file in Hpre. rewrite foldM_app in *.
      destruct (foldM (parse_line fos) initial_state pre') as [e|st']; [done|].
      rewrite bind_ok. cbn [foldM]. rewrite parse_sentinel by done. simpl. eauto. }
  destruct Hst as (st & Hst & Hn & Hz).
  unfold parse_cm_file.
  rewrite foldM_app, Hst, bind_ok, (parse_fresh_block fos _ _ c), bind_ok by done.
  eexists. split; [reflexivity|]. split.
  - unfold flush, name_after. simpl.
    rewrite (second_tokens_none NameLine) by done. simpl.
    rewrite Hn. apply lookup_insert_eq.
  - intros Hother. apply block_cutoff_inv in Hc as (Hga & Htc & Hnc).
    unfold block_value in *.
    rewrite !second_tokens_none in *
      by (eapply Forall_impl; [exact Hother | intros l ->; done]).
    simpl in *. destruct c. simpl in *. unfold zero_cutoff. congruence.
Qed.

Lemma parse_cm_file_nameless_tail_witness :
  ∃ t, parse_cm_file decimal_float closed_cm = Ok t ∧
       t !! EmptyString = Some zero_cutoff.
Proof.
  destruct (parse_cm_file_nameless_tail decimal_float
              (twister_cm ++ [sentinel_line])
              closed_cm_tail zero_cutoff)
    as (t & Ht & Hlook & _).
  - vm_compute. exact I.
  - right. eexists _, _. split; [reflexivity|]. vm_compute. reflexivity.
  - repeat constructor; vm_compute; discriminate.
  - repeat constructor; vm_compute; discriminate.
  - repeat constructor.
  - vm_compute. reflexivity.
  - exists t. by split.
Defined.

(** C10, as stated, fails: no [NAME] line follows the last sentinel of
    the file below, and the entry under the empty name has [GA = 5.0]. *)
Lemma nameless_entry_not_zero :
  Forall (λ l, kind_of l ≠ NameLine) nameless_cm ∧
  ∃ t, parse_cm_file decimal_float nameless_cm = Ok t ∧
       t !! EmptyString = Some (mk_cutoff 5 0 0) ∧
       t !! EmptyString ≠ Some zero_cutoff.
Proof.
  split; [repeat constructor; vm_compute; discriminate|].
  eexists. split; [vm_compute; reflexivity|].
  split.
  - vm_compute. reflexivity.
  - intros H.
    apply (f_equal (λ o, match o with
                         | Some c => PrimFloat.eqb (cut_GA c) 0
                         | None => false
                         end)) in H.
    vm_compute in H. discriminate.
Qed.

(** * Further properties of the code *)

(** ** When the parser raises *)

Lemma parse_line_ok fos st line :
  is_ok (parse_line fos st line) ↔ line_ok fos line = true.
Proof.
  rewrite parse_line_kind. unfold line_ok, getitem, to_float.
  destruct (kind_of line) as [| |t|]; simpl; [done| | |done].
  - rewrite bool_decide_eq_true.
    destruct (split line !! 1) as [tok|]; simpl;
      (split; [try done; eauto | try done; by intros [? ?]]).
  - rewrite bool_decide_eq_true.
    destruct (split line !! 1) as [tok|]; simpl; [destruct (fos tok) as [v|]; simpl|];
      (split; [try done; eauto | try done; by intros [? ?]]).
Qed.

Lemma foldM_lines_ok fos lines :
  ∀ st, is_ok (foldM (parse_line fos) st lines) ↔ Forall (λ l, line_ok fos l = true) lines.
Proof.
  induction lines as [|l ls IH]; intros st; simpl.
  - split; [constructor | done].
  - rewrite Forall_cons, <- (parse_line_ok fos st l).
    destruct (parse_line fos st l) as [e|st'] eqn:E; simpl.
    + split; [done | by intros [? _]].
    + rewrite (IH st'). split; [done | intros [_ ?]; done].
Qed.

(** X1.  [parse_cm_file] runs through exactly when no line raises: every
    [NAME] line has a second token and every [GA], [TC] or [NC] line has a
    second token that [float] accepts; a line that contains [INFERNAL] is
    never read for tokens. *)
Theorem parse_cm_file_ok_iff fos lines :
  is_ok (parse_cm_file fos lines) ↔ Forall (λ l, line_ok fos l = true) lines.
Proof.
  rewrite <- (foldM_lines_ok fos lines initial_state). unfold parse_cm_file.
  by destruct (foldM (parse_line fos) initial_state lines).
Qed.

Lemma parse_line_error fos st line :
  line_ok fos line = false → parse_line fos st line = Raise (line_error line).
Proof.
  rewrite parse_line_kind. unfold line_ok, line_error, getitem, to_float.
  destruct (kind_of line) as [| |t|]; simpl; [done| | |done].
  - destruct (split line !! 1) as [tok|]; simpl; [|done].
    intros H. first [discriminate H | apply bool_decide_eq_false in H; destruct H; eauto].
  - destruct (split line !! 1) as [tok|]; simpl; [|done].
    destruct (fos tok) as [v|]; simpl; [|done].
    intros H. first [discriminate H | apply bool_decide_eq_false in H; destruct H; eauto].
Qed.

(** X2.  The first line that raises decides the exception, whatever
    follows it: [IndexError] when the line has a single token,
    [ValueError] on its second token otherwise. *)
Theorem parse_cm_file_first_bad_line fos pre line rest :
  Forall (λ l, line_ok fos l = true) pre →
  line_ok fos line = false →
  parse_cm_file fos (pre ++ line :: rest) = Raise (line_error line).
Proof.
  intros Hpre Hbad. unfold parse_cm_file. rewrite foldM_app.
  apply (foldM_lines_ok fos pre initial_state) in Hpre.
  destruct (foldM (parse_line fos) initial_state pre) as [e|st]; [done|].
  rewrite bind_ok. cbn [foldM]. by rewrite parse_line_error.
Qed.

Lemma parse_cm_file_first_bad_line_witness :
  parse_cm_file decimal_float broken_cm = Raise (ValueError "n/a").
Proof.
  apply (parse_cm_file_first_bad_line decimal_float
           [sentinel_line; "NAME     Twister-P5" ++ nl]%string
           ("GA       n/a" ++ nl)%string ["NAME" ++ nl]%string).
  - repeat constructor.
  - vm_compute. reflexivity.
Defined.

(** ** The parser, block by block *)

Lemma split_from_nonempty tok s x :
  x ∈ split_from tok s → x ≠ EmptyString.
Proof.
  revert tok. induction s as [|c s IH]; intros tok; simpl.
  - destruct (String.eqb tok EmptyString) eqn:E; [intros H; inversion H|].
    intros H. apply list_elem_of_singleton in H as ->.
    by apply String.eqb_neq in E.
  - destruct (isspace c); [|apply IH].
    destruct (String.eqb tok EmptyString) eqn:E; [apply IH|].
    intros H. apply elem_of_cons in H as [->|H]; [|by eapply IH].
    by apply String.eqb_neq in E.
Qed.

Lemma elem_of_second_tokens k body x :
  x ∈ second_tokens k body → ∃ l, l ∈ body ∧ kind_of l = k ∧ x = split l !! 1.
Proof.
  unfold second_tokens. intros H. apply list_elem_of_fmap in H as (l & -> & Hl).
  apply list_elem_of_In, filter_In in Hl as [Hl Hk].
  exists l. split; [by apply list_elem_of_In|]. split; [|done].
  by apply bool_decide_eq_true in Hk.
Qed.

Lemma last_elem_of {A} (l : list A) (x : A) : last l = Some x → x ∈ l.
Proof.
  induction l as [|y l IH]; [done|]. destruct l as [|z l].
  - intros [= ->]. left.
  - intros H. right. by apply IH.
Qed.

Lemma block_name_nonempty body name :
  block_name body = Some name → name ≠ EmptyString.
Proof.
  unfold block_name. destruct (last (second_tokens NameLine body)) as [tok|] eqn:E; [|done].
  intros ->. apply last_elem_of, elem_of_second_tokens in E as (l & _ & _ & Htok).
  symmetry in Htok. apply list_elem_of_lookup_2 in Htok.
  by apply split_from_nonempty in Htok.
Qed.

Lemma block_value_total fos t body :
  Forall (λ l, line_ok fos l = true) body → is_Some (block_value fos t body).
Proof.
  intros Hok. unfold block_value.
  destruct (last (second_tokens (CutLine t) body)) as [tok|] eqn:E; [|by eexists].
  apply last_elem_of, elem_of_second_tokens in E as (l & Hl & Hk & ->).
  rewrite Forall_forall in Hok. specialize (Hok l Hl). unfold line_ok in Hok.
  rewrite Hk in Hok. by apply bool_decide_eq_true in Hok.
Qed.

Lemma block_cutoff_total fos body :
  Forall (λ l, line_ok fos l = true) body →
  block_cutoff fos body = Some (cutoff_of_block fos body).
Proof.
  intros Hok. unfold cutoff_of_block, block_cutoff.
  destruct (block_value_total fos GA body Hok) as [ga ->].
  destruct (block_value_total fos TC body Hok) as [tc ->].
  destruct (block_value_total fos NC body Hok) as [nc ->]. done.
Qed.

Lemma join_split_blocks lines :
  join_blocks (split_blocks lines).1 (split_blocks lines).2 = lines.
Proof.
  induction lines as [|l ls IH]; [done|]. cbn [split_blocks].
  destruct (split_blocks ls) as [b rest]. cbn [fst snd] in IH.
  destruct (bool_decide (kind_of l = Sentinel)); cbn [fst snd].
  - change (join_blocks [] ((l, b) :: rest)) with (l :: join_blocks b rest).
    by rewrite IH.
  - change (join_blocks (l :: b) rest) with (l :: join_blocks b rest).
    by rewrite IH.
Qed.

Lemma split_blocks_shape fos lines :
  Forall (λ l, line_ok fos l = true) lines →
  (Forall (λ l, kind_of l ≠ Sentinel) (split_blocks lines).1 ∧
   Forall (λ l, line_ok fos l = true) (split_blocks lines).1) ∧
  Forall (λ sb, kind_of sb.1 = Sentinel ∧
                Forall (λ l, kind_of l ≠ Sentinel) sb.2 ∧
                Forall (λ l, line_ok fos l = true) sb.2) (split_blocks lines).2.
Proof.
  induction 1 as [|l ls Hl _ IH]; simpl; [by repeat constructor|].
  destruct (split_blocks ls) as [b rest]. simpl in IH.
  destruct IH as [[Hns Hok] Hrest].
  case_bool_decide as Hk; simpl.
  - split; [by split|]. constructor; [|done]. by simpl.
  - split; [|done]. split; by constructor.
Qed.

Lemma store_all_app table es1 es2 :
  store_all (store_all table es1) es2 = store_all table (es1 ++ es2).
Proof. unfold store_all. by rewrite foldl_app. Qed.

(** The loop over a run of blocks, from loop variables that hold neither
    a name nor a cutoff. *)
Lemma parse_join_blocks fos rest :
  ∀ table b0,
  Forall (λ l, kind_of l ≠ Sentinel) b0 →
  Forall (λ l, line_ok fos l = true) b0 →
  Forall (λ sb, kind_of sb.1 = Sentinel ∧
                Forall (λ l, kind_of l ≠ Sentinel) sb.2 ∧
                Forall (λ l, line_ok fos l = true) sb.2) rest →
  bind (foldM (parse_line fos) (mk_state table EmptyString zero_cutoff)
          (join_blocks b0 rest))
       (λ st, Ok (flush st))
  = Ok (store_all table (block_entries fos b0 rest)).
Proof.
  induction rest as [|[s b1] rest IH]; intros table b0 Hns Hok Hrest.
  - unfold join_blocks. simpl. rewrite app_nil_r.
    rewrite (parse_fresh_block fos _ _ (cutoff_of_block fos b0))
      by (try done; by apply block_cutoff_total).
    rewrite bind_ok. unfold flush, name_after, block_name. simpl.
    by destruct (last (second_tokens NameLine b0)) as [[n|]|].
  - apply Forall_cons in Hrest as [(Hs & Hns1 & Hok1) Hrest].
    change (join_blocks b0 ((s, b1) :: rest)) with (b0 ++ s :: join_blocks b1 rest).
    rewrite foldM_app.
    rewrite (parse_fresh_block fos _ _ (cutoff_of_block fos b0))
      by (try done; by apply block_cutoff_total).
    rewrite bind_ok. cbn [foldM]. rewrite parse_sentinel by done. rewrite bind_ok.
    cbn [last_name cutoffs_of last_cutoff]. rewrite IH by done.
    f_equal. cbn [block_entries snd]. rewrite <- store_all_app. f_equal.
    unfold name_after. cbn [last_name].
    destruct (block_name b0) as [n|] eqn:Hn.
    + pose proof (block_name_nonempty _ _ Hn) as Hne. unfold block_name in Hn.
      destruct (last (second_tokens NameLine b0)) as [tok|]; [|done].
      rewrite Hn. apply String.eqb_neq in Hne. by rewrite Hne.
    + unfold block_name in Hn.
      destruct (last (second_tokens NameLine b0)) as [tok|]; [rewrite Hn|]; done.
Qed.

(** X3.  On a file whose lines do not raise, [parse_cm_file] stores the
    blocks that the sentinel lines cut, in file order: each block that a
    later sentinel closes is stored under its name when it has one and
    dropped when it has none, and the last block is stored in any case,
    under the empty name when it has none. *)
Theorem parse_cm_file_blocks fos lines :
  Forall (λ l, line_ok fos l = true) lines →
  parse_cm_file fos lines =
  Ok (store_all ∅ (block_entries fos (split_blocks lines).1 (split_blocks lines).2)).
Proof.
  intros Hok. destruct (split_blocks_shape fos lines Hok) as [[Hns Hok0] Hrest].
  rewrite <- (parse_join_blocks fos _ ∅ _ Hns Hok0 Hrest).
  by rewrite join_split_blocks.
Qed.

Lemma parse_cm_file_blocks_witness :
  parse_cm_file decimal_float three_block_cm =
  Ok (store_all ∅ [ ("Twister-P5", mk_cutoff 45 45.3 0);
                    ("Hammerhead_3", mk_cutoff 40 0 0);
                    ("Twister-P5", mk_cutoff 0 0 30) ]).
Proof.
  rewrite (parse_cm_file_blocks decimal_float three_block_cm).
  - vm_compute. reflexivity.
  - repeat constructor.
Defined.

Lemma last_entry_cons name e es :
  last_entry name (e :: es) =
  match last_entry name es with
  | Some c => Some c
  | None => if String.eqb e.1 name then Some e.2 else None
  end.
Proof.
  unfold last_entry. simpl.
  destruct (String.eqb e.1 name); [rewrite last_cons|];
    by destruct (last (List.filter _ es)).
Qed.

Lemma store_all_lookup entries :
  ∀ table name,
  store_all table entries !! name =
  match last_entry name entries with
  | Some c => Some c
  | None => table !! name
  end.
Proof.
  induction entries as [|e es IH]; intros table name; [done|].
  change (store_all table (e :: es)) with (store_all (<[e.1 := e.2]> table) es).
  rewrite IH, last_entry_cons. destruct (last_entry name es); [done|].
  destruct (String.eqb e.1 name) eqn:E.
  - apply String.eqb_eq in E as <-. apply lookup_insert_eq.
  - apply String.eqb_neq in E. by apply lookup_insert_ne.
Qed.

(** X4.  In the table returned for a file whose lines do not raise, a
    name maps to the cutoffs of the last block stored under it, and a
    name under which no block is stored has no entry. *)
Theorem parse_cm_file_lookup fos lines :
  Forall (λ l, line_ok fos l = true) lines →
  ∃ table,
    parse_cm_file fos lines = Ok table ∧
    ∀ name,
      table !! name =
      last_entry name (block_entries fos (split_blocks lines).1 (split_blocks lines).2).
Proof.
  intros Hok. destruct (split_blocks_shape fos lines Hok) as [[Hns Hok0] Hrest].
  pose proof (parse_join_blocks fos _ ∅ _ Hns Hok0 Hrest) as Hparse.
  rewrite join_split_blocks in Hparse.
  eexists. split; [exact Hparse|].
  intros name. rewrite store_all_lookup, lookup_empty. by destruct (last_entry _ _).
Qed.

Lemma parse_cm_file_lookup_witness :
  ∃ table,
    parse_cm_file decimal_float three_block_cm = Ok table ∧
    table !! "Twister-P5" = Some (mk_cutoff 0 0 30) ∧
    table !! "Hammerhead_3" = Some (mk_cutoff 40 0 0) ∧
    table !! "Pistol" = None.
Proof.
  destruct (parse_cm_file_lookup decimal_float three_block_cm) as (table & Ht & Hlook).
  - repeat constructor.
  - exists table. split; [done|]. rewrite !Hlook. by vm_compute.
Defined.

(** ** The filter on a CM file *)

Lemma first_missing_none cutoffs keys :
  first_missing cutoffs keys = None ↔ ∀ k, k ∈ keys → is_Some (cutoffs !! k).
Proof.
  unfold first_missing. split.
  - intros Hnone k Hk. apply list_elem_of_In in Hk.
    apply (find_none _ _ Hnone) in Hk. apply bool_decide_eq_false in Hk.
    destruct (cutoffs !! k); [by eexists | done].
  - intros Hall. destruct (List.find _ keys) as [k|] eqn:E; [|done].
    apply find_some in E as [Hin Hb]. apply bool_decide_eq_true in Hb.
    apply list_elem_of_In, Hall in Hin. rewrite Hb in Hin. by destruct Hin.
Qed.

Lemma all_profiles_listed cutoffs hits :
  first_missing cutoffs (group_keys hits) = None ↔
  ∀ r, r ∈ hits → is_Some (cutoffs !! ribozyme r).
Proof.
  rewrite first_missing_none. split.
  - intros H r Hr. apply H, elem_of_group_keys. eauto.
  - intros H k Hk. apply elem_of_group_keys in Hk as (r & Hr & <-). by apply H.
Qed.

Lemma classify_spec pow_half hits cutoffs cfg :
  hits ≠ [] →
  classify pow_half hits cutoffs cfg =
  bind (collect_spec pow_half cfg cutoffs hits) (λ ev, Ok (report hits ev)).
Proof. destruct hits as [|r hits]; [done|]. intros _. apply classify_cons. Qed.

(** X5.  With a CM file and [use_cm_cutoff] set, [ribozyme_filter] on a
    table that is not empty runs through exactly when the table returned
    by [parse_cm_file] lists the profile of every hit; otherwise it raises
    [KeyError] on the first unlisted profile in group order.  The table of
    the parser is never empty, so the guard [use_cm_cutoff and cutoffs]
    never switches the cutoff test off here. *)
Theorem ribozyme_filter_runs_iff pow_half fos hits lines cfg table :
  hits ≠ [] →
  use_cm_cutoff cfg = true →
  parse_cm_file fos lines = Ok table →
  table ≠ ∅ ∧
  (is_ok (ribozyme_filter pow_half fos hits (Some lines) cfg) ↔
   ∀ r, r ∈ hits → is_Some (table !! ribozyme r)) ∧
  ribozyme_filter pow_half fos hits (Some lines) cfg =
  match first_missing table (group_keys hits) with
  | Some k => Raise (KeyError k)
  | None => Ok (report hits (evidence_of pow_half cfg table hits))
  end.
Proof.
  intros Hne Huse Hparse.
  assert (Htable : table ≠ ∅) by (by eapply parse_cm_file_non_empty).
  assert (E : ribozyme_filter pow_half fos hits (Some lines) cfg =
              match first_missing table (group_keys hits) with
              | Some k => Raise (KeyError k)
              | None => Ok (report hits (evidence_of pow_half cfg table hits))
              end).
  { rewrite ribozyme_filter_classify by done. rewrite Huse, Hparse, bind_ok.
    rewrite classify_spec by done. unfold collect_spec, cutoff_active.
    rewrite Huse, bool_decide_eq_true_2 by done. simpl.
    by destruct (first_missing table (group_keys hits)). }
  split; [done|]. split; [|done].
  rewrite E, <- all_profiles_listed.
  destruct (first_missing table (group_keys hits)); simpl; split; done.
Qed.

Lemma ribozyme_filter_runs_iff_witness :
  ribozyme_filter ieee_pow_half decimal_float hammerhead_hits (Some twister_cm)
    default_config = Raise (KeyError "Hammerhead_3").
Proof.
  destruct (ribozyme_filter_runs_iff ieee_pow_half decimal_float hammerhead_hits
              twister_cm default_config {[ "Twister-P5" := mk_cutoff 45 45.3 0 ]})
    as (_ & _ & E).
  - discriminate.
  - reflexivity.
  - vm_compute. reflexivity.
  - rewrite E. vm_compute. reflexivity.
Defined.

(** X6.  With [use_cm_cutoff] off, or without a CM file, the filter never
    reads a cutoff: it cannot raise, whatever the CM file holds, and it is
    the classifier on the empty cutoff dictionary. *)
Theorem ribozyme_filter_without_cutoffs pow_half fos hits cm_file cfg :
  use_cm_cutoff cfg = false ∨ cm_file = None →
  is_ok (ribozyme_filter pow_half fos hits cm_file cfg) ∧
  ribozyme_filter pow_half fos hits cm_file cfg = classify pow_half hits ∅ cfg ∧
  (hits ≠ [] →
   ribozyme_filter pow_half fos hits cm_file cfg =
   Ok (report hits (evidence_of pow_half cfg ∅ hits))).
Proof.
  intros Hoff.
  assert (Hload : match cm_file with
                  | Some lines =>
                      if use_cm_cutoff cfg then parse_cm_file fos lines else Ok ∅
                  | None => Ok ∅
                  end = Ok ∅).
  { destruct Hoff as [Hoff| ->]; [|done]. rewrite Hoff. by destruct cm_file. }
  assert (Hact : cutoff_active cfg ∅ = false).
  { unfold cutoff_active. rewrite bool_decide_eq_false_2 by (intros H; by apply H).
    apply andb_false_r. }
  destruct hits as [|r hits]; [done|].
  assert (E : ribozyme_filter pow_half fos (r :: hits) cm_file cfg =
              classify pow_half (r :: hits) ∅ cfg).
  { rewrite ribozyme_filter_classify by done. by rewrite Hload, bind_ok. }
  assert (E' : classify pow_half (r :: hits) ∅ cfg =
               Ok (report (r :: hits) (evidence_of pow_half cfg ∅ (r :: hits)))).
  { rewrite classify_cons. unfold collect_spec. by rewrite Hact. }
  split; [by rewrite E, E'|]. split; [done|]. intros _. by rewrite E, E'.
Qed.

Lemma ribozyme_filter_without_cutoffs_witness :
  is_ok (ribozyme_filter ieee_pow_half decimal_float hammerhead_hits (Some broken_cm)
           evalue_only).
Proof.
  apply (ribozyme_filter_without_cutoffs ieee_pow_half decimal_float hammerhead_hits
           (Some broken_cm) evalue_only).
  left. reflexivity.
Defined.

(** ** The three sets, hit by hit *)

(** X7.  When the loop runs through, the sets are decided hit by hit,
    across profiles: an identifier is in [rz_plus] (in [rz_minus]) exactly
    when the table has a hit of that sequence on the plus (minus) strand
    that scores above the cutoff of its own profile or has an e-value
    below [max_evalue ** 0.5], and in [rz_significant] exactly when it has
    a hit above its cutoff or with an e-value below [max_evalue].  So a
    sequence is dual-polarity as soon as it has one such hit on each
    strand, be they hits of two different profiles. *)
Theorem evidence_hit_by_hit pow_half hits cutoffs cfg ev :
  collect pow_half cfg cutoffs (groupby hits) = Ok ev →
  ∀ s,
    (s ∈ rz_plus ev ↔
       ∃ r, r ∈ hits ∧ seq_id r = s ∧ strand r = "+"%string ∧
            strand_evidence pow_half cfg cutoffs r = true) ∧
    (s ∈ rz_minus ev ↔
       ∃ r, r ∈ hits ∧ seq_id r = s ∧ strand r = "-"%string ∧
            strand_evidence pow_half cfg cutoffs r = true) ∧
    (s ∈ rz_significant ev ↔
       ∃ r, r ∈ hits ∧ seq_id r = s ∧ significant cfg cutoffs r = true) ∧
    (s ∈ double_rz_ids ev ↔
       (∃ r, r ∈ hits ∧ seq_id r = s ∧ strand r = "+"%string ∧
             strand_evidence pow_half cfg cutoffs r = true) ∧
       (∃ r, r ∈ hits ∧ seq_id r = s ∧ strand r = "-"%string ∧
             strand_evidence pow_half cfg cutoffs r = true)).
Proof.
  intros Hev s. rewrite collect_groupby in Hev. unfold collect_spec in Hev.
  destruct (if cutoff_active cfg cutoffs then _ else _); [discriminate|].
  injection Hev as <-.
  assert (Hstrand : ∀ sign,
    s ∈ seq_ids (query (λ r, on_strand sign r && strand_evidence pow_half cfg cutoffs r) hits) ↔
    ∃ r, r ∈ hits ∧ seq_id r = s ∧ strand r = sign ∧
         strand_evidence pow_half cfg cutoffs r = true).
  { intros sign. rewrite elem_of_seq_ids_query. unfold on_strand.
    split; intros (r & Hr & H1 & H2); exists r.
    - apply andb_true_iff in H1 as [H1 H3]. apply String.eqb_eq in H1. done.
    - destruct H2 as [H2 H3]. repeat split; [done| |done].
      apply andb_true_iff. split; [by apply String.eqb_eq | done]. }
  unfold double_rz_ids. rewrite elem_of_intersection. cbn [evidence_of rz_plus rz_minus rz_significant].
  rewrite !Hstrand. repeat split; try tauto.
  - rewrite elem_of_seq_ids_query. intros (r & ? & ? & ?). eauto.
  - rewrite elem_of_seq_ids_query. intros (r & ? & ? & ?). eauto.
Qed.

Lemma evidence_hit_by_hit_witness :
  ∃ ev, collect ieee_pow_half cutoff_only twister_cutoffs (groupby mixed_hits) = Ok ev ∧
        "seq1" ∈ double_rz_ids ev.
Proof.
  eexists. split; [vm_compute; reflexivity|].
  apply (evidence_hit_by_hit ieee_pow_half mixed_hits twister_cutoffs cutoff_only _ eq_refl "seq1").
  split.
  - exists (sample_hit "seq1" "Twister-P5" "+" 50 1).
    split; [left|]. by vm_compute.
  - exists (sample_hit "seq1" "Twister-P5" "-" 50 1).
    split; [right; right; left|]. by vm_compute.
Defined.

(** X8.  The viroid-like identifiers are the dual-polarity ones together
    with the significant ones.  With the e-value test off the strand test
    and the significance test are the same cutoff test, so every
    dual-polarity identifier is significant and the viroid-like
    identifiers are exactly the significant ones. *)
Theorem viroid_like_is_dual_or_significant pow_half hits cutoffs cfg ev :
  collect pow_half cfg cutoffs (groupby hits) = Ok ev →
  ribozy_likes_ids ev = double_rz_ids ev ∪ rz_significant ev ∧
  (use_evalue_cutoff cfg = false →
   rz_plus ev ⊆ rz_significant ev ∧ rz_minus ev ⊆ rz_significant ev ∧
   ribozy_likes_ids ev = rz_significant ev).
Proof.
  intros Hev.
  assert (Hlikes : ribozy_likes_ids ev = double_rz_ids ev ∪ rz_significant ev).
  { unfold ribozy_likes_ids, single_rz_ids. apply set_eq. intros s.
    rewrite !elem_of_union, elem_of_difference.
    destruct (decide (s ∈ double_rz_ids ev)); tauto. }
  split; [done|]. intros Hoff.
  rewrite collect_groupby in Hev. unfold collect_spec in Hev.
  destruct (if cutoff_active cfg cutoffs then _ else _); [discriminate|].
  injection Hev as <-.
  assert (Hp : ∀ sign,
    seq_ids (query (λ r, on_strand sign r && strand_evidence pow_half cfg cutoffs r) hits)
    ⊆ seq_ids (query (significant cfg cutoffs) hits)).
  { intros sign. apply seq_ids_query_mono. intros r _.
    unfold strand_evidence, significant. rewrite Hoff. simpl.
    rewrite !orb_false_r. by intros [_ ?]%andb_true_iff. }
  split; [apply Hp|]. split; [apply Hp|].
  rewrite Hlikes. unfold double_rz_ids. cbn [evidence_of rz_plus rz_minus rz_significant].
  pose proof (Hp "+"%string). set_solver.
Qed.

Lemma viroid_like_is_dual_or_significant_witness :
  ∃ ev, collect ieee_pow_half cutoff_only twister_cutoffs (groupby mixed_hits) = Ok ev ∧
        ribozy_likes_ids ev = rz_significant ev.
Proof.
  eexists. split; [vm_compute; reflexivity|].
  apply (viroid_like_is_dual_or_significant ieee_pow_half mixed_hits twister_cutoffs
           cutoff_only _ eq_refl).
  reflexivity.
Defined.

(** ** The returned frames *)

Lemma elem_of_loc ids ev hits row :
  row ∈ loc ids (tag ev <$> hits) ↔
  ∃ r, r ∈ hits ∧ row = tag ev r ∧ seq_id r ∈ ids.
Proof.
  unfold loc. rewrite list_elem_of_In, filter_In, <- list_elem_of_In, list_elem_of_fmap.
  unfold isin. rewrite bool_decide_eq_true. split.
  - intros [(r & -> & Hr) Hin]. eauto.
  - intros (r & Hr & -> & Hin). split; [eauto | done].
Qed.

Lemma length_filter_split {A} (p q pq : A → bool) (l : list A) :
  (∀ x, x ∈ l → pq x = p x || q x) →
  (∀ x, x ∈ l → p x = true → q x = false) →
  length (List.filter pq l) = length (List.filter p l) + length (List.filter q l).
Proof.
  induction l as [|x l IH]; intros Hor Hex; [done|]. simpl.
  rewrite (Hor x) by left.
  assert (IH' : length (List.filter pq l)
                = length (List.filter p l) + length (List.filter q l)).
  { apply IH; intros y Hy; [apply Hor | apply Hex]; by right. }
  destruct (p x) eqn:Hp; simpl.
  - rewrite (Hex x) by (done || left). rewrite IH'. done.
  - destruct (q x); simpl; rewrite IH'; lia.
Qed.

Lemma fmap_hit_loc ids ev hits :
  hit <$> loc ids (tag ev <$> hits) = List.filter (isin ids) hits.
Proof.
  unfold loc. induction hits as [|r hits IH]; [done|].
  simpl in *. destruct (isin ids r); simpl; [f_equal|]; exact IH.
Qed.

Lemma report_frames pow_half hits cutoffs cfg res :
  classify pow_half hits cutoffs cfg = Ok (Some res) →
  ∃ ev,
    collect pow_half cfg cutoffs (groupby hits) = Ok ev ∧
    ribozy_likes_ids ev ≠ ∅ ∧
    ribozy_likes_ids ev ⊆ seq_ids hits ∧
    res = mk_result (loc (single_rz_ids ev) (tag ev <$> hits))
                    (loc (double_rz_ids ev) (tag ev <$> hits))
                    (loc (ribozy_likes_ids ev) (tag ev <$> hits)).
Proof.
  intros Hres. destruct hits as [|r hits]; [discriminate|].
  unfold classify, analyze, analyze_groups in Hres.
  destruct (collect pow_half cfg cutoffs (groupby (r :: hits))) as [e|ev] eqn:Hev;
    [discriminate|].
  rewrite bind_ok in Hres. injection Hres as Hrep. exists ev. split; [done|].
  assert (Hne : ribozy_likes_ids ev ≠ ∅).
  { intros E. apply (report_none (r :: hits)) in E. congruence. }
  split; [done|]. split.
  - rewrite collect_groupby in Hev. unfold collect_spec in Hev.
    destruct (if cutoff_active cfg cutoffs then _ else _); [discriminate|].
    injection Hev as <-.
    destruct (evidence_of_ids pow_half cfg cutoffs (r :: hits)) as (Hp & Hm & Hs).
    unfold ribozy_likes_ids, single_rz_ids, double_rz_ids. set_solver.
  - rewrite report_some in Hrep by done. congruence.
Qed.

(** X9.  In a returned result every row of [single_rzs] carries the label
    ["(+)"], every row of [double_rzs] the label ["(+) and (-)"], and
    [ribozy_likes] is made of the rows of the two, each row in exactly one
    of them: no row is left without a label and the row counts add up. *)
Theorem polarity_labels pow_half hits cutoffs cfg res :
  classify pow_half hits cutoffs cfg = Ok (Some res) →
  Forall (λ row, Polarity row = Some "(+)"%string) (single_rzs res) ∧
  Forall (λ row, Polarity row = Some "(+) and (-)"%string) (double_rzs res) ∧
  (∀ row, row ∈ ribozy_likes res ↔ row ∈ single_rzs res ∨ row ∈ double_rzs res) ∧
  (∀ row, ¬ (row ∈ single_rzs res ∧ row ∈ double_rzs res)) ∧
  length (ribozy_likes res) = length (single_rzs res) + length (double_rzs res).
Proof.
  intros Hres. destruct (report_frames _ _ _ _ _ Hres) as (ev & _ & _ & _ & ->).
  cbn [single_rzs double_rzs ribozy_likes].
  assert (Hdisj : ∀ s, s ∈ single_rz_ids ev → s ∉ double_rz_ids ev).
  { unfold single_rz_ids. set_solver. }
  assert (Hsingle : ∀ r, seq_id r ∈ single_rz_ids ev →
                         Polarity (tag ev r) = Some "(+)"%string).
  { intros r Hin. unfold tag, isin. simpl. by rewrite bool_decide_eq_true_2. }
  assert (Hdouble : ∀ r, seq_id r ∈ double_rz_ids ev →
                         Polarity (tag ev r) = Some "(+) and (-)"%string).
  { intros r Hin. unfold tag, isin. simpl.
    rewrite bool_decide_eq_false_2 by (intros ?; by eapply Hdisj).
    by rewrite bool_decide_eq_true_2. }
  split; [|split; [|split; [|split]]].
  - apply Forall_forall. intros row (r & _ & -> & Hin)%elem_of_loc. by apply Hsingle.
  - apply Forall_forall. intros row (r & _ & -> & Hin)%elem_of_loc. by apply Hdouble.
  - intros row. rewrite !elem_of_loc. unfold ribozy_likes_ids. split.
    + intros (r & Hr & -> & Hin). apply elem_of_union in Hin as [Hin|Hin];
        [right | left]; eauto.
    + intros [(r & Hr & -> & Hin)|(r & Hr & -> & Hin)]; exists r;
        (split; [done|]; split; [done|]); apply elem_of_union; [by right | by left].
  - intros row [(r & _ & -> & Hs)%elem_of_loc (r' & _ & E & Hd)%elem_of_loc].
    apply Hsingle in Hs. apply Hdouble in Hd. rewrite E in Hs. congruence.
  - unfold loc. rewrite (length_filter_split
      (λ row, isin (single_rz_ids ev) (hit row))
      (λ row, isin (double_rz_ids ev) (hit row))); [done| |].
    + intros row _. unfold isin, ribozy_likes_ids.
      apply eq_true_iff_eq. rewrite orb_true_iff, !bool_decide_eq_true. set_solver.
    + intros row _. unfold isin. rewrite bool_decide_eq_true, bool_decide_eq_false.
      apply Hdisj.
Qed.

Lemma polarity_labels_witness :
  ∃ res, classify ieee_pow_half mixed_hits twister_cutoffs cutoff_only = Ok (Some res) ∧
         length (single_rzs res) = 1 ∧ length (double_rzs res) = 2 ∧
         length (ribozy_likes res) = 3 ∧
         Forall (λ row, Polarity row = Some "(+)"%string) (single_rzs res).
Proof.
  destruct (classify ieee_pow_half mixed_hits twister_cutoffs cutoff_only)
    as [e|[res|]] eqn:E; [vm_compute in E; discriminate| |vm_compute in E; discriminate].
  destruct (polarity_labels ieee_pow_half mixed_hits twister_cutoffs cutoff_only res E)
    as (Hs & _ & _ & _ & Hlen).
  exists res. split; [done|].
  vm_compute in E. injection E as <-. repeat split; try reflexivity. exact Hs.
Defined.

Lemma frames_rows_not_empty pow_half hits cutoffs cfg res :
  classify pow_half hits cutoffs cfg = Ok (Some res) → ribozy_likes res ≠ [].
Proof.
  intros Hres. destruct (report_frames _ _ _ _ _ Hres) as (ev & Hev & Hne & Hsub & ->).
  cbn [ribozy_likes].
  apply set_choose_L in Hne as [s Hs].
  destruct (proj1 (elem_of_seq_ids _ _) (Hsub _ Hs)) as (r & Hr & <-).
  intros Hnil.
  assert (Hin : tag ev r ∈ loc (ribozy_likes_ids ev) (tag ev <$> hits))
    by (apply elem_of_loc; eauto).
  rewrite Hnil in Hin. inversion Hin.
Qed.

(** X10.  The frames of a returned result hold rows of the table, as they
    are and in table order: the hits of the rows kept are the table
    filtered by the identifier set of the frame.  [ribozy_likes] is never
    empty, so the test [ribozy_likes.shape[0]] before writing the output
    file always holds and the file is written whenever a path is given. *)
Theorem frames_are_filtered_table pow_half hits cutoffs cfg res :
  classify pow_half hits cutoffs cfg = Ok (Some res) →
  ∃ ev,
    collect pow_half cfg cutoffs (groupby hits) = Ok ev ∧
    hit <$> single_rzs res = List.filter (isin (single_rz_ids ev)) hits ∧
    hit <$> double_rzs res = List.filter (isin (double_rz_ids ev)) hits ∧
    hit <$> ribozy_likes res = List.filter (isin (ribozy_likes_ids ev)) hits ∧
    ribozy_likes res ≠ [].
Proof.
  intros Hres. destruct (report_frames _ _ _ _ _ Hres) as (ev & Hev & Hne & Hsub & ->).
  exists ev. cbn [single_rzs double_rzs ribozy_likes]. rewrite !fmap_hit_loc.
  repeat split; try done.
  by apply (frames_rows_not_empty _ _ _ _ _ Hres).
Qed.

Lemma frames_are_filtered_table_witness :
  ∃ res, classify ieee_pow_half mixed_hits twister_cutoffs cutoff_only = Ok (Some res) ∧
         ribozy_likes res ≠ [].
Proof.
  destruct (classify ieee_pow_half mixed_hits twister_cutoffs cutoff_only)
    as [e|[res|]] eqn:E; [vm_compute in E; discriminate| |vm_compute in E; discriminate].
  destruct (frames_are_filtered_table ieee_pow_half mixed_hits twister_cutoffs
              cutoff_only res E) as (ev & _ & _ & _ & _ & Hne).
  exists res. split; [reflexivity | exact Hne].
Defined.

(** ** The table as a set of rows *)

Lemma collect_spec_ok_iff pow_half cfg cutoffs hits :
  is_ok (collect_spec pow_half cfg cutoffs hits) ↔
  (cutoff_active cfg cutoffs = true →
   ∀ r, r ∈ hits → is_Some (cutoffs !! ribozyme r)).
Proof.
  unfold collect_spec. rewrite <- all_profiles_listed.
  destruct (cutoff_active cfg cutoffs); simpl.
  - destruct (first_missing cutoffs (group_keys hits)); simpl; split; try done.
    intros H. by specialize (H eq_refl).
  - split; done.
Qed.

Lemma collect_spec_ok_inv pow_half cfg cutoffs hits ev :
  collect_spec pow_half cfg cutoffs hits = Ok ev →
  ev = evidence_of pow_half cfg cutoffs hits.
Proof.
  unfold collect_spec. destruct (if cutoff_active cfg cutoffs then _ else _); [done|].
  by intros [= <-].
Qed.

Lemma collect_spec_ok_intro pow_half cfg cutoffs hits :
  is_ok (collect_spec pow_half cfg cutoffs hits) →
  collect_spec pow_half cfg cutoffs hits = Ok (evidence_of pow_half cfg cutoffs hits).
Proof.
  unfold collect_spec. by destruct (if cutoff_active cfg cutoffs then _ else _).
Qed.

Lemma seq_ids_query_subrows p df1 df2 :
  (∀ r, r ∈ df1 → r ∈ df2) → seq_ids (query p df1) ⊆ seq_ids (query p df2).
Proof.
  intros Hsub s. rewrite !elem_of_seq_ids_query.
  intros (r & Hr & ?). exists r. split; [by apply Hsub | done].
Qed.

(** X11.  Hits added to the table never cost a candidate: when the run
    on the larger table goes through, so does the run on the smaller one,
    and its three sets, its dual-polarity identifiers and its viroid-like
    identifiers are among those of the larger table.  (A single-polarity
    identifier may become dual-polarity.) *)
Theorem more_hits_keep_candidates pow_half hits more cutoffs cfg ev2 :
  collect pow_half cfg cutoffs (groupby (hits ++ more)) = Ok ev2 →
  ∃ ev1,
    collect pow_half cfg cutoffs (groupby hits) = Ok ev1 ∧
    rz_plus ev1 ⊆ rz_plus ev2 ∧
    rz_minus ev1 ⊆ rz_minus ev2 ∧
    rz_significant ev1 ⊆ rz_significant ev2 ∧
    double_rz_ids ev1 ⊆ double_rz_ids ev2 ∧
    ribozy_likes_ids ev1 ⊆ ribozy_likes_ids ev2.
Proof.
  rewrite !collect_groupby. intros Hev2.
  assert (Hok2 : is_ok (collect_spec pow_half cfg cutoffs (hits ++ more)))
    by (by rewrite Hev2).
  apply collect_spec_ok_inv in Hev2 as ->.
  assert (Hok1 : is_ok (collect_spec pow_half cfg cutoffs hits)).
  { apply collect_spec_ok_iff. intros Hact r Hr.
    apply (proj1 (collect_spec_ok_iff _ _ _ _) Hok2 Hact). apply elem_of_app. by left. }
  exists (evidence_of pow_half cfg cutoffs hits).
  split; [by apply collect_spec_ok_intro|].
  assert (Hsub : ∀ p, seq_ids (query p hits) ⊆ seq_ids (query p (hits ++ more))).
  { intros p. apply seq_ids_query_subrows. intros r Hr. apply elem_of_app. by left. }
  assert (Hp := Hsub (λ r, on_strand "+" r && strand_evidence pow_half cfg cutoffs r)).
  assert (Hm := Hsub (λ r, on_strand "-" r && strand_evidence pow_half cfg cutoffs r)).
  assert (Hs := Hsub (significant cfg cutoffs)).
  split; [done|]. split; [done|]. split; [done|]. split.
  - unfold double_rz_ids. cbn [evidence_of rz_plus rz_minus]. set_solver.
  - by apply ribozy_likes_ids_mono.
Qed.

Lemma more_hits_keep_candidates_witness :
  ∃ ev1 ev2,
    collect ieee_pow_half cutoff_only twister_cutoffs (groupby twister_hits) = Ok ev1 ∧
    collect ieee_pow_half cutoff_only twister_cutoffs (groupby (twister_hits ++ mixed_hits))
      = Ok ev2 ∧
    ribozy_likes_ids ev1 ⊆ ribozy_likes_ids ev2.
Proof.
  destruct (more_hits_keep_candidates ieee_pow_half twister_hits mixed_hits
              twister_cutoffs cutoff_only
              (evidence_of ieee_pow_half cutoff_only twister_cutoffs
                 (twister_hits ++ mixed_hits)))
    as (ev1 & H1 & _ & _ & _ & _ & Hlikes).
  - rewrite collect_groupby. vm_compute. reflexivity.
  - exists ev1, (evidence_of ieee_pow_half cutoff_only twister_cutoffs
                   (twister_hits ++ mixed_hits)).
    split; [exact H1|]. split; [|exact Hlikes].
    rewrite collect_groupby. vm_compute. reflexivity.
Defined.

(** X12.  The sets depend on the rows of the table only, not on their
    order nor on repetitions: two tables with the same rows make the loop
    raise in both runs or give the same three sets. *)
Theorem same_rows_same_sets pow_half hits hits' cutoffs cfg :
  (∀ r, r ∈ hits ↔ r ∈ hits') →
  same_outcome (collect pow_half cfg cutoffs (groupby hits))
               (collect pow_half cfg cutoffs (groupby hits')).
Proof.
  intros Hrows. rewrite !collect_groupby.
  assert (Hiff : is_ok (collect_spec pow_half cfg cutoffs hits) ↔
                 is_ok (collect_spec pow_half cfg cutoffs hits')).
  { rewrite !collect_spec_ok_iff. split; intros H Hact r Hr; apply (H Hact), Hrows, Hr. }
  destruct (collect_spec pow_half cfg cutoffs hits) as [e|ev] eqn:E;
  destruct (collect_spec pow_half cfg cutoffs hits') as [e'|ev'] eqn:E'; simpl.
  - done.
  - by apply Hiff.
  - by apply Hiff.
  - apply collect_spec_ok_inv in E as ->. apply collect_spec_ok_inv in E' as ->.
    by apply evidence_of_same_rows.
Qed.

Lemma same_rows_same_sets_witness :
  same_outcome
    (collect ieee_pow_half cutoff_only twister_cutoffs (groupby mixed_hits))
    (collect ieee_pow_half cutoff_only twister_cutoffs
       (groupby (reverse mixed_hits ++ mixed_hits))).
Proof.
  apply (same_rows_same_sets ieee_pow_half mixed_hits (reverse mixed_hits ++ mixed_hits)
           twister_cutoffs cutoff_only).
  intros r. rewrite elem_of_app, elem_of_reverse. tauto.
Defined.

(** ** [easy_search] *)

(** X13.  [easy_search] never hands [write_seqs] an empty list.  On an
    empty Infernal table, and on a table without any viroid-like sequence,
    [ribozyme_filter] returns [None] and subscripting it raises
    [TypeError]; an exception of the filter is passed on. *)
Theorem easy_search_never_empty pow_half fos hits reference_cms :
  easy_search_ids pow_half fos hits reference_cms ≠ inr [] ∧
  (easy_search_ids pow_half fos hits reference_cms = inl TypeError ↔
   ribozyme_filter pow_half fos hits reference_cms ribozyme_filter_defaults = Ok None) ∧
  (hits = [] → easy_search_ids pow_half fos hits reference_cms = inl TypeError) ∧
  (∀ e, easy_search_ids pow_half fos hits reference_cms = inl (FilterError e) ↔
        ribozyme_filter pow_half fos hits reference_cms ribozyme_filter_defaults = Raise e).
Proof.
  unfold easy_search_ids.
  assert (Hne : ∀ res,
            ribozyme_filter pow_half fos hits reference_cms ribozyme_filter_defaults
            = Ok (Some res) → seq_id_list (ribozy_likes res) ≠ []).
  { intros res Hres. destruct hits as [|r hits]; [discriminate|].
    rewrite ribozyme_filter_classify in Hres by done.
    apply bind_ok_inv in Hres as (cutoffs & _ & Hres).
    apply frames_rows_not_empty in Hres.
    unfold seq_id_list. intros E. apply fmap_nil_inv in E. done. }
  destruct (ribozyme_filter pow_half fos hits reference_cms ribozyme_filter_defaults)
    as [e|[res|]] eqn:E.
  - split; [done|]. split; [split; discriminate|]. split.
    + intros ->. discriminate E.
    + intros e'. split; intros [= ->]; done.
  - specialize (Hne res eq_refl). split; [by intros [= H]|].
    split; [split; discriminate|]. split.
    + intros ->. discriminate E.
    + intros e'. split; discriminate.
  - split; [done|]. split; [done|]. split; [done|].
    intros e'. split; discriminate.
Qed.

Lemma seq_id_list_loc ids ev hits :
  seq_id_list (loc ids (tag ev <$> hits)) =
  List.filter (λ s, bool_decide (s ∈ ids)) (seq_id <$> hits).
Proof.
  unfold seq_id_list, loc, isin. induction hits as [|r hits IH]; [done|].
  simpl in *. destruct (bool_decide (seq_id r ∈ ids)); simpl; [f_equal|]; exact IH.
Qed.

(** X14.  What [easy_search] hands to [write_seqs] is the [seq_id] column
    of the table, filtered by the viroid-like identifiers found with the
    default options: one identifier per retained hit, in table order, so
    a sequence with several hits is named several times, and the
    identifiers named are exactly the viroid-like ones. *)
Theorem easy_search_ids_filtered_column pow_half fos hits reference_cms ids :
  easy_search_ids pow_half fos hits reference_cms = inr ids →
  ∃ cutoffs ev,
    match reference_cms with
    | Some lines => parse_cm_file fos lines = Ok cutoffs
    | None => cutoffs = ∅
    end ∧
    collect pow_half ribozyme_filter_defaults cutoffs (groupby hits) = Ok ev ∧
    ids = List.filter (λ s, bool_decide (s ∈ ribozy_likes_ids ev)) (seq_id <$> hits) ∧
    list_to_set ids = ribozy_likes_ids ev.
Proof.
  unfold easy_search_ids. intros Hids.
  destruct (ribozyme_filter pow_half fos hits reference_cms ribozyme_filter_defaults)
    as [e|[res|]] eqn:E; [discriminate| |discriminate].
  injection Hids as <-.
  assert (Hne : hits ≠ []) by (intros ->; discriminate E).
  rewrite ribozyme_filter_classify in E by done.
  apply bind_ok_inv in E as (cutoffs & Hload & Hres).
  destruct (report_frames _ _ _ _ _ Hres) as (ev & Hev & _ & Hsub & ->).
  exists cutoffs, ev. split; [|split; [done|]].
  - destruct reference_cms as [lines|]; [exact Hload | by injection Hload].
  - cbn [ribozy_likes]. split; [apply seq_id_list_loc|].
    change (list_to_set (seq_id_list (loc (ribozy_likes_ids ev) (tag ev <$> hits))))
      with (list_to_set (C := gset string)
              ((λ row, seq_id (hit row)) <$> loc (ribozy_likes_ids ev) (tag ev <$> hits))).
    rewrite <- (row_ids_loc ev (ribozy_likes_ids ev) hits Hsub) at 2.
    unfold row_ids, seq_ids. by rewrite <- list_fmap_compose.
Qed.

Lemma easy_search_ids_filtered_column_witness :
  easy_search_ids ieee_pow_half decimal_float mixed_hits (Some twister_cm)
  = inr ["seq1"; "seq2"; "seq1"]%string ∧
  ∃ cutoffs ev,
    parse_cm_file decimal_float twister_cm = Ok cutoffs ∧
    collect ieee_pow_half ribozyme_filter_defaults cutoffs (groupby mixed_hits) = Ok ev ∧
    list_to_set ["seq1"; "seq2"; "seq1"]%string = ribozy_likes_ids ev.
Proof.
  assert (E : easy_search_ids ieee_pow_half decimal_float mixed_hits (Some twister_cm)
              = inr ["seq1"; "seq2"; "seq1"]%string) by (vm_compute; reflexivity).
  split; [exact E|].
  destruct (easy_search_ids_filtered_column ieee_pow_half decimal_float mixed_hits
              (Some twister_cm) _ E) as (cutoffs & ev & Hload & Hev & _ & Hset).
  exists cutoffs, ev. split; [exact Hload|]. split; [exact Hev | exact Hset].
Defined.

(** ** Lower cutoffs *)

Lemma SFleb_SFltb_trans (a b c : spec_float) :
  SFleb a b = true → SFltb b c = true → SFltb a c = true.
Proof.
  unfold SFltb, SFleb.
  destruct a as [sa| sa | |sa ma ea], b as [sb|sb| |sb mb eb], c as [sc|sc| |sc mc ec];
    simpl; try discriminate; try reflexivity;
    repeat match goal with s : bool |- _ => destruct s end;
    simpl; try discriminate; try reflexivity.
  all: rewrite ?Pos.compare_cont_spec; simpl.
  all: destruct (Z.compare_spec ea eb), (Z.compare_spec eb ec), (Z.compare_spec ea ec);
       try lia; simpl; try discriminate; try reflexivity.
  all: subst; destruct (Pos.compare_spec ma mb), (Pos.compare_spec mb mc), (Pos.compare_spec ma mc);
       try lia; simpl; try discriminate; try reflexivity.
Qed.

Lemma fle_flt_trans (x y z : float) :
  fle x y = true → flt y z = true → flt x z = true.
Proof.
  unfold flt, fle. rewrite !FloatAxioms.ltb_spec, FloatAxioms.leb_spec.
  apply SFleb_SFltb_trans.
Qed.

Lemma first_missing_same cutoffs1 cutoffs2 keys :
  (∀ k, cutoffs1 !! k = None ↔ cutoffs2 !! k = None) →
  first_missing cutoffs1 keys = first_missing cutoffs2 keys.
Proof.
  intros Hdom. unfold first_missing. induction keys as [|k keys IH]; [done|]. simpl.
  rewrite IH. destruct (cutoffs1 !! k) as [d1|] eqn:E1.
  - destruct (cutoffs2 !! k) as [d2|] eqn:E2; [done|].
    apply Hdom in E2. congruence.
  - apply Hdom in E1. by rewrite E1.
Qed.

(** X15.  Lower cutoffs never cost a candidate.  Take two runs on one
    table that differ in the cutoffs only (another cutoff kind, another
    cutoff dictionary with the same profile names), every cutoff of the
    second run being at most the one of the first.  Then both runs raise
    the same exception or both go through, and each of the three sets, the
    dual-polarity and the viroid-like identifiers of the first run are
    among those of the second. *)
Theorem lower_cutoffs_keep_candidates pow_half hits cutoffs1 cutoffs2 cfg t2 :
  (∀ k, cutoffs1 !! k = None ↔ cutoffs2 !! k = None) →
  (∀ k d1 d2, cutoffs1 !! k = Some d1 → cutoffs2 !! k = Some d2 →
              fle (cutoff_get d2 t2) (cutoff_get d1 (cm_cutoff_type cfg)) = true) →
  match collect pow_half cfg cutoffs1 (groupby hits),
        collect pow_half (with_cutoff_type cfg t2) cutoffs2 (groupby hits) with
  | inr ev1, inr ev2 =>
      rz_plus ev1 ⊆ rz_plus ev2 ∧ rz_minus ev1 ⊆ rz_minus ev2 ∧
      rz_significant ev1 ⊆ rz_significant ev2 ∧
      double_rz_ids ev1 ⊆ double_rz_ids ev2 ∧
      ribozy_likes_ids ev1 ⊆ ribozy_likes_ids ev2
  | inl e1, inl e2 => e1 = e2
  | _, _ => False
  end.
Proof.
  intros Hdom Hle. rewrite !collect_groupby. unfold collect_spec.
  assert (Hact : cutoff_active (with_cutoff_type cfg t2) cutoffs2 = cutoff_active cfg cutoffs1).
  { unfold cutoff_active. simpl. f_equal. apply bool_decide_ext. split.
    - intros Hne ->. apply Hne. apply map_eq. intros k. rewrite lookup_empty.
      apply Hdom, lookup_empty.
    - intros Hne ->. apply Hne. apply map_eq. intros k. rewrite lookup_empty.
      apply Hdom, lookup_empty. }
  rewrite Hact, (first_missing_same cutoffs1 cutoffs2) by done.
  destruct (if cutoff_active cfg cutoffs1 then _ else _); simpl; [done|].
  assert (Habove : ∀ r, above_cutoff cfg cutoffs1 r = true →
                        above_cutoff (with_cutoff_type cfg t2) cutoffs2 r = true).
  { intros r. unfold above_cutoff. simpl.
    destruct (cutoffs1 !! ribozyme r) as [d1|] eqn:E1; [|done].
    destruct (cutoffs2 !! ribozyme r) as [d2|] eqn:E2.
    - intros Hlt. by apply (fle_flt_trans _ (cutoff_get d1 (cm_cutoff_type cfg))), Hlt; eauto.
    - apply Hdom in E2. congruence. }
  assert (He : ∀ r, strand_evidence pow_half cfg cutoffs1 r = true →
                    strand_evidence pow_half (with_cutoff_type cfg t2) cutoffs2 r = true).
  { intros r. unfold strand_evidence. rewrite Hact. simpl.
    rewrite !orb_true_iff, !andb_true_iff. intros [[? ?]|?]; [left | by right].
    split; [done | by apply Habove]. }
  assert (Hs : ∀ r, significant cfg cutoffs1 r = true →
                    significant (with_cutoff_type cfg t2) cutoffs2 r = true).
  { intros r. unfold significant. rewrite Hact. simpl.
    rewrite !orb_true_iff, !andb_true_iff. intros [[? ?]|?]; [left | by right].
    split; [done | by apply Habove]. }
  assert (Hp : ∀ sign,
    seq_ids (query (λ r, on_strand sign r && strand_evidence pow_half cfg cutoffs1 r) hits) ⊆
    seq_ids (query (λ r, on_strand sign r &&
                         strand_evidence pow_half (with_cutoff_type cfg t2) cutoffs2 r) hits)).
  { intros sign. apply seq_ids_query_mono. intros r _.
    rewrite !andb_true_iff. intros [? ?]. split; [done | by apply He]. }
  assert (Hsig : seq_ids (query (significant cfg cutoffs1) hits) ⊆
                 seq_ids (query (significant (with_cutoff_type cfg t2) cutoffs2) hits)).
  { apply seq_ids_query_mono. intros r _. apply Hs. }
  split; [apply Hp|]. split; [apply Hp|]. split; [done|]. split.
  - unfold double_rz_ids. cbn [evidence_of rz_plus rz_minus].
    pose proof (Hp "+"%string). pose proof (Hp "-"%string). set_solver.
  - apply ribozy_likes_ids_mono; [apply Hp | apply Hp | done].
Qed.

Lemma lower_cutoffs_keep_candidates_witness :
  ∃ ev1 ev2,
    collect ieee_pow_half cutoff_only twister_cutoffs (groupby mixed_hits) = Ok ev1 ∧
    collect ieee_pow_half (with_cutoff_type cutoff_only NC) twister_cutoffs
      (groupby mixed_hits) = Ok ev2 ∧
    ribozy_likes_ids ev1 ⊆ ribozy_likes_ids ev2.
Proof.
  assert (E1 : collect ieee_pow_half cutoff_only twister_cutoffs (groupby mixed_hits)
               = Ok (evidence_of ieee_pow_half cutoff_only twister_cutoffs mixed_hits))
    by (rewrite collect_groupby; vm_compute; reflexivity).
  assert (E2 : collect ieee_pow_half (with_cutoff_type cutoff_only NC) twister_cutoffs
                 (groupby mixed_hits)
               = Ok (evidence_of ieee_pow_half (with_cutoff_type cutoff_only NC)
                       twister_cutoffs mixed_hits))
    by (rewrite collect_groupby; vm_compute; reflexivity).
  assert (Hdom : ∀ k : string, twister_cutoffs !! k = None ↔ twister_cutoffs !! k = None)
    by (intros k; tauto).
  assert (Hle : ∀ k d1 d2, twister_cutoffs !! k = Some d1 → twister_cutoffs !! k = Some d2 →
                  fle (cutoff_get d2 NC) (cutoff_get d1 (cm_cutoff_type cutoff_only)) = true).
  { intros k d1 d2 H1 H2. unfold twister_cutoffs in H1, H2.
    apply lookup_singleton_Some in H1 as [_ <-].
    apply lookup_singleton_Some in H2 as [_ <-]. vm_compute. reflexivity. }
  pose proof (lower_cutoffs_keep_candidates ieee_pow_half mixed_hits twister_cutoffs
                twister_cutoffs cutoff_only NC Hdom Hle) as H.
  rewrite E1, E2 in H. destruct H as (_ & _ & _ & _ & Hlikes).
  eexists _, _. split; [exact E1|]. split; [exact E2 | exact Hlikes].
Defined.
